(** * blargbot: the [delete] subtag, the custom-command manager, the
      database connector and the concat argument binding

    A shallow embedding of four parts of the bot:
    - [Delete]: [src/tags/delete.js], the subtag that deletes a message;
    - [CustomCommand]: the [ccommand] manager (save, shrinkwrap), with
      [Flags], [Install], [TagImport] and [Shrinkwrapper] for its flag,
      install, import and export subcommands;
    - [Database]: the connector with its retrying connection loop;
    - [ConcatBinding]: the argument binding that concatenates arguments.

    Asynchronous functions are embedded as state-passing functions: a
    promise that resolves is a returned value, a promise that rejects is a
    [Rejected] outcome. *)

From Stdlib Require Import ZArith Ascii String.
From stdpp Require Import gmap strings list pretty.

Open Scope string_scope.
Set Warnings "-register-all".

(** Outcome of awaiting a fallible host call. *)
Inductive Fallible (A : Type) : Type :=
| Resolved (a : A)
| Rejected.
Arguments Resolved {A} a.
Arguments Rejected {A}.

(* ===================================================================== *)
(** ** The [delete] subtag                                                 *)
(* ===================================================================== *)
Module Delete.

Record Channel := { channel_id : string }.

Record Message := { msg_id : string; msg_channel : Channel }.

Record Guild := { guild_id : string }.

(** The part of the execution context the subtag reads: [context.isStaff],
    [context.ownsMessage], [context.channel], [context.msg] and
    [context.guild]. *)
Record Context := {
  isStaff : bool;
  ownsMessage : string -> bool;
  channel : Channel;
  msg : Message;
  guild : Guild
}.

(** The platform as the handler sees it. [parseChannel] is
    [Builder.util.parseChannel] called with [quiet: true]: it yields a
    channel or nothing. [getMessage] and [botDeleteMessage] are the two
    calls on [bot]; both may reject. A resolved [getMessage] may still carry
    no message, which is what the [if (msg)] test of the handler is for. *)
Record Host := {
  parseChannel : Context -> string -> option Channel;
  getMessage : string -> string -> Fallible (option Message);
  botDeleteMessage : string -> string -> Fallible unit
}.

(** What a run leaves behind, oldest first. The boolean of a platform call
    tells whether the call resolved. *)
Inductive Effect :=
| EvGetMessage (channelId messageId : string) (ok : bool)
| EvSetMarker (guildId messageId : string)
| EvDeleteMessage (channelId messageId : string) (ok : bool).

(** [bu.notCommandMessages] is a process-wide object of objects:
    guild id, then message id, then [true]. *)
Record World := {
  notCommandMessages : gmap string (gmap string bool);
  trace : list Effect
}.

Definition emit (e : Effect) (w : World) : World :=
  {| notCommandMessages := notCommandMessages w; trace := trace w ++ [e] |}.

(** What a handler hands back: nothing ([undefined]), text, or an in-band
    error. *)
Inductive SubtagResult :=
| RUndefined
| RText (text : string)
| RError (message : string).

(** Modelled from the spec: [Builder.util.error] and the stock errors of
    [Builder.errors] live in the tag builder, which is not part of the
    sources at hand. By sections 4.2 and 7 they produce a non-fatal
    diagnostic that is rendered in-band; the handler returns it. *)
Definition util_error (message : string) : SubtagResult := RError message.

Definition noChannelFound : SubtagResult := util_error "No channel found".
Definition noMessageFound : SubtagResult := util_error "No message found".
Definition tooManyArguments : SubtagResult := util_error "Too many arguments".

Definition is_ok {A} (r : Fallible A) : bool :=
  match r with Resolved _ => true | Rejected => false end.

(** [if (!bu.notCommandMessages[g]) bu.notCommandMessages[g] = {};
     bu.notCommandMessages[g][m] = true;] *)
Definition setMarker (guildId messageId : string) (w : World) : World :=
  let inner := default ∅ (notCommandMessages w !! guildId) in
  {| notCommandMessages :=
       <[guildId := <[messageId := true]> inner]> (notCommandMessages w);
     trace := trace w ++ [EvSetMarker guildId messageId] |}.

Definition marked (guildId messageId : string) (w : World) : bool :=
  match notCommandMessages w !! guildId with
  | Some inner => default false (inner !! messageId)
  | None => false
  end.

(** The lookup of the target message: the invoking message is reused when
    its id is the requested one, otherwise the platform is asked. *)
Definition fetchTarget (h : Host) (context : Context) (ch : Channel)
    (messageId : string) (w : World) : Fallible (option Message) * World :=
  if decide (msg_id (msg context) = messageId)
  then (Resolved (Some (msg context)), w)
  else
    let r := getMessage h (channel_id ch) messageId in
    (r, emit (EvGetMessage (channel_id ch) messageId (is_ok r)) w).

(** The final [try { if (msg) await bot.deleteMessage(...) } catch { }]. *)
Definition tryDelete (h : Host) (target : option Message) (w : World) : World :=
  match target with
  | Some m =>
      let r := botDeleteMessage h (channel_id (msg_channel m)) (msg_id m) in
      emit (EvDeleteMessage (channel_id (msg_channel m)) (msg_id m) (is_ok r)) w
  | None => w
  end.

(** The shared property [deleteMessage] of the subtag. *)
Definition deleteMessage (h : Host) (context : Context)
    (channelId messageId : string) (w : World) : SubtagResult * World :=
  if negb (isStaff context || ownsMessage context messageId)
  then (util_error "Author must be staff to delete unrelated messages", w)
  else
    match parseChannel h context channelId with
    | None => (noChannelFound, w)
    | Some ch =>
        match fetchTarget h context ch messageId w with
        | (Rejected, w1) => (noMessageFound, w1)
        | (Resolved target, w1) =>
            let w2 := setMarker (guild_id (guild context))
                                (msg_id (msg context)) w1 in
            (RUndefined, tryDelete h target w2)
        end
    end.

(** *** Arity dispatch *)

Definition Handler : Type :=
  Host -> Context -> list string -> World -> SubtagResult * World.

(** Modelled from the spec: the tag builder ([TagBuilder], with
    [whenArgs], [whenDefault] and the dispatch it builds) is not part of
    the sources at hand. By section 4.2 a definition maps an exact argument
    count to a handler and has a designated default handler; the handler
    for the exact count is chosen first and the default runs when there is
    none. A definition without a default leaves the outcome open ([None]). *)
Record SubtagDefinition := {
  name : string;
  conditional : gmap nat Handler;
  whenNoMatch : option Handler
}.

Definition AutoTag (n : string) : SubtagDefinition :=
  {| name := n; conditional := ∅; whenNoMatch := None |}.

Definition whenArgs (count : nat) (f : Handler) (d : SubtagDefinition)
    : SubtagDefinition :=
  {| name := name d;
     conditional := <[count := f]> (conditional d);
     whenNoMatch := whenNoMatch d |}.

Definition whenDefault (f : Handler) (d : SubtagDefinition) : SubtagDefinition :=
  {| name := name d; conditional := conditional d; whenNoMatch := Some f |}.

Definition selectHandler (d : SubtagDefinition) (argc : nat) : option Handler :=
  match conditional d !! argc with
  | Some f => Some f
  | None => whenNoMatch d
  end.

Definition execute (d : SubtagDefinition) (h : Host) (context : Context)
    (args : list string) (w : World) : option (SubtagResult * World) :=
  match selectHandler d (List.length args) with
  | Some f => Some (f h context args w)
  | None => None
  end.

(** The handlers registered by [delete.js]. [args[0]] of a call with too
    few arguments does not arise: each handler runs only for its count. *)
Definition delete0 : Handler := fun h context args w =>
  deleteMessage h context (channel_id (channel context)) (msg_id (msg context)) w.

Definition delete1 : Handler := fun h context args w =>
  deleteMessage h context (channel_id (channel context)) (nth 0 args "") w.

Definition delete2 : Handler := fun h context args w =>
  deleteMessage h context (nth 0 args "") (nth 1 args "") w.

Definition deleteDefault : Handler := fun h context args w =>
  (tooManyArguments, w).

Definition delete : SubtagDefinition :=
  whenDefault deleteDefault
    (whenArgs 2 delete2 (whenArgs 1 delete1 (whenArgs 0 delete0 (AutoTag "delete")))).

(** *** Vocabulary for the properties *)

Definition unauthorised : string :=
  "Author must be staff to delete unrelated messages".

(** A platform call of the run did not resolve. *)
Definition hostFailure (log : list Effect) : bool :=
  existsb (fun e => match e with
                    | EvGetMessage _ _ ok | EvDeleteMessage _ _ ok => negb ok
                    | EvSetMarker _ _ => false
                    end) log.

Definition isDiagnostic (r : SubtagResult) : bool :=
  match r with RError _ => true | _ => false end.

End Delete.

(* ===================================================================== *)
(** ** Sibling evaluation                                                  *)
(* ===================================================================== *)
Module Evaluator.
Import Delete.

(** Modelled from the spec: the evaluator is not part of the sources at
    hand. This is section 4.3 for a sequence of sibling nodes whose subtag
    and arguments are already resolved: literals go to the output as they
    are; a call runs the handler that the definition selects; text is
    appended, an error is rendered as an inline token and logged, and in
    both cases evaluation goes on with the next sibling. Counters and
    limits are left out. A call for which the definition selects no
    handler leaves the run open ([None]). *)
Inductive Node :=
| Literal (text : string)
| Call (definition : SubtagDefinition) (args : list string).

Record Run := {
  output : string;
  diagnostics : list (string * string);
  world : World
}.

Definition renderError (message : string) : string := "`" ++ message ++ "`".

Definition append (text : string) (r : Run) (w : World) : Run :=
  {| output := output r ++ text; diagnostics := diagnostics r; world := w |}.

Definition report (subtag message : string) (r : Run) (w : World) : Run :=
  {| output := output r ++ renderError message;
     diagnostics := diagnostics r ++ [(subtag, message)];
     world := w |}.

Fixpoint evaluate (h : Host) (context : Context) (nodes : list Node) (r : Run)
    : option Run :=
  match nodes with
  | [] => Some r
  | Literal text :: rest => evaluate h context rest (append text r (world r))
  | Call d args :: rest =>
      match execute d h context args (world r) with
      | None => None
      | Some (RUndefined, w) => evaluate h context rest (append "" r w)
      | Some (RText text, w) => evaluate h context rest (append text r w)
      | Some (RError message, w) =>
          evaluate h context rest (report (name d) message r w)
      end
  end.

End Evaluator.

(* ===================================================================== *)
(** ** The custom-command manager                                          *)
(* ===================================================================== *)
Module CustomCommand.

Definition nl : string := String "010"%char EmptyString.

(** *** Stored commands *)

Record FlagDefinition := { flag : string; word : string; desc : string }.

(** A stored command with a body of its own. Numbers are the cooldown in
    milliseconds and the use count. *)
Record StoredRawGuildCommand := {
  content : string;
  author : string;
  authorizer : option string;
  hidden : option bool;
  managed : option bool;
  flags : option (list FlagDefinition);
  cooldown : option Z;
  help : option string;
  lang : option string;
  roles : option (list string);
  uses : option Z
}.

(** A stored command that stands for a tag, as [importCommand] writes it. *)
Record StoredAliasedGuildCommand := {
  alias_author : string;
  alias : string;
  alias_authorizer : option string
}.

Inductive StoredGuildCommand :=
| RawCommand (c : StoredRawGuildCommand)
| AliasedCommand (c : StoredAliasedGuildCommand).

(** A command together with the name it is stored under. *)
Definition NamedStoredGuildCommand : Type := string * StoredGuildCommand.
Definition NamedStoredRawGuildCommand : Type := string * StoredRawGuildCommand.

(** *** JavaScript values, for the objects that are exported *)

Inductive JsValue :=
| JUndefined
| JNull
| JBool (b : bool)
| JNumber (n : Z)
| JString (s : string)
| JArray (items : list JsValue)
| JObject (members : list (string * JsValue)).

Definition optional {A} (f : A -> JsValue) (o : option A) : JsValue :=
  match o with Some a => f a | None => JUndefined end.

Definition flagObject (f : FlagDefinition) : JsValue :=
  JObject [("flag", JString (flag f)); ("word", JString (word f));
           ("desc", JString (desc f))].

Definition keys (members : list (string * JsValue)) : list string :=
  fst <$> members.

(** Own properties that [JSON.stringify] writes: those whose value is not
    [undefined]. *)
Definition isUndefined (v : JsValue) : bool :=
  match v with JUndefined => true | _ => false end.

Definition definedKeys (members : list (string * JsValue)) : list string :=
  fst <$> List.filter (fun kv => negb (isUndefined kv.2)) members.

Definition property (key : string) (members : list (string * JsValue)) : JsValue :=
  match List.find (fun kv => String.eqb kv.1 key) members with
  | Some kv => kv.2
  | None => JUndefined
  end.

(** [shrinkCommand]: the object literal, member by member. *)
Definition shrinkCommand (command : NamedStoredRawGuildCommand)
    : list (string * JsValue) :=
  let c := command.2 in
  [ ("content", JString (content c));
    ("cooldown", optional JNumber (cooldown c));
    ("flags", optional (fun fs => JArray (flagObject <$> fs)) (flags c));
    ("help", optional JString (help c));
    ("hidden", optional JBool (hidden c));
    ("lang", optional JString (lang c));
    ("managed", optional JBool (managed c));
    ("roles", optional (fun rs => JArray (JString <$> rs)) (roles c));
    ("uses", optional JNumber (uses c)) ].

(** The members the description of the export format lists: script text,
    flags, cooldown, help text, role restrictions, hidden and managed. *)
Definition listedMembers : list string :=
  ["content"; "flags"; "cooldown"; "help"; "roles"; "hidden"; "managed"].

(** The members [shrinkCommand] writes. *)
Definition exportedMembers : list string :=
  ["content"; "cooldown"; "flags"; "help"; "hidden"; "lang"; "managed";
   "roles"; "uses"].

(** *** Names *)

Definition isDigit (c : ascii) : bool :=
  let n := nat_of_ascii c in (48 <=? n)%nat && (n <=? 57)%nat.

Definition isUpper (c : ascii) : bool :=
  let n := nat_of_ascii c in (65 <=? n)%nat && (n <=? 90)%nat.

Definition isLower (c : ascii) : bool :=
  let n := nat_of_ascii c in (97 <=? n)%nat && (n <=? 122)%nat.

(** The class [\d\w .,\/#!$%\^&\*;:{}[\]=\-_~()<>] of [normalizeName]. *)
Definition punctuation : list ascii :=
  list_ascii_of_string " .,/#!$%^&*;:{}[]=-_~()<>".

Definition allowed (c : ascii) : bool :=
  isDigit c || isUpper c || isLower c || existsb (Ascii.eqb c) punctuation.

Definition lower (c : ascii) : ascii :=
  if isUpper c then ascii_of_nat (nat_of_ascii c + 32) else c.

Fixpoint keep (f : ascii -> bool) (s : string) : string :=
  match s with
  | EmptyString => EmptyString
  | String c rest => if f c then String c (keep f rest) else keep f rest
  end.

Fixpoint toLowerCase (s : string) : string :=
  match s with
  | EmptyString => EmptyString
  | String c rest => String (lower c) (toLowerCase rest)
  end.

Definition normalizeName (title : string) : string :=
  toLowerCase (keep allowed title).

Definition startsWith (prefix : ascii) (s : string) : bool :=
  match s with
  | String c _ => Ascii.eqb c prefix
  | EmptyString => false
  end.

Definition nonEmpty (s : string) : bool := (0 <? String.length s)%nat.

(** *** The world the manager runs in *)

Record Context := {
  isGuildCommandContext : bool;
  guildId : string;
  authorId : string
}.

Inductive StoreCall :=
| SetCommand (guild commandName : string) (command : StoredGuildCommand).

(** The command table of the store, keyed by guild and name; the answers
    the user will give to the questions asked through [awaitQuery], in
    order ([None]: no answer came); and the writes issued to the store. *)
Record World := {
  commands : gmap (string * string) StoredGuildCommand;
  replies : list (option string);
  storeCalls : list StoreCall
}.

(** A small state monad over [World]. *)
Definition M (A : Type) : Type := World -> A * World.

Definition ret {A} (a : A) : M A := fun w => (a, w).

Definition bind {A B} (m : M A) (k : A -> M B) : M B :=
  fun w => let '(a, w1) := m w in k a w1.

Declare Scope cc_scope.
Delimit Scope cc_scope with cc.
Notation "x <- m ;; k" := (bind m (fun x => k))
  (at level 100, m at next level, right associativity) : cc_scope.
Open Scope cc_scope.

Definition awaitQuery (query : string) : M (option string) := fun w =>
  match replies w with
  | [] => (None, w)
  | r :: rest =>
      (r, {| commands := commands w; replies := rest; storeCalls := storeCalls w |})
  end.

Definition getCommand (guild commandName : string)
    : M (option NamedStoredGuildCommand) := fun w =>
  ((fun c => (commandName, c)) <$> commands w !! (guild, commandName), w).

Definition dbSetCommand (guild commandName : string) (command : StoredGuildCommand)
    : M unit := fun w =>
  (tt, {| commands := <[(guild, commandName) := command]> (commands w);
          replies := replies w;
          storeCalls := storeCalls w ++ [SetCommand guild commandName command] |}).

(** A function of the manager either finds what it asked for or answers
    the user at once with a text or with nothing: the
    [typeof match !== 'object'] test of the callers. *)
Inductive Request (A : Type) : Type :=
| Found (a : A)
| Answer (reply : option string).
Arguments Found {A} a.
Arguments Answer {A} reply.

Definition isManaged (c : StoredGuildCommand) : bool :=
  match c with
  | RawCommand r => default false (managed r)
  | AliasedCommand _ => false
  end.

Definition isHidden (c : StoredGuildCommand) : bool :=
  match c with
  | RawCommand r => default false (hidden r)
  | AliasedCommand _ => false
  end.

Definition notOnGuild : string := "❌ Custom commands can only be used on guilds.".

Definition nameQuery : string :=
  "Enter the name of the custom command or type `c` to cancel:".

Definition contentQuery : string :=
  "Enter the custom command's contents or type `c` to cancel:".

(** [requestCommandName]: the given name if it survives normalisation,
    otherwise the user is asked, unless the query text is empty. *)
Definition requestCommandName (commandName : option string) (query : string)
    : M (option string) :=
  let given :=
    match commandName with
    | Some n => let n' := normalizeName n in if nonEmpty n' then Some n' else None
    | None => None
    end in
  match given with
  | Some n => ret (Some n)
  | None =>
      if negb (nonEmpty query) then ret None
      else
        answer <- awaitQuery query ;;
        match answer with
        | None => ret None
        | Some a =>
            if String.eqb a "c" then ret None
            else let n := normalizeName a in
                 ret (if nonEmpty n then Some n else None)
        end
  end.

Definition requestCommandContent (given : option string) : M (option string) :=
  match (match given with
         | Some c => if nonEmpty c then Some c else None
         | None => None
         end) with
  | Some c => ret (Some c)
  | None =>
      answer <- awaitQuery contentQuery ;;
      match answer with
      | None => ret None
      | Some a =>
          if String.eqb a "c" then ret None
          else ret (if nonEmpty a then Some a else None)
      end
  end.

Definition requestCommand (context : Context) (commandName : option string)
    (allowQuery : bool) : M (Request (string * option StoredGuildCommand)) :=
  n <- requestCommandName commandName (if allowQuery then nameQuery else "") ;;
  match n with
  | None => ret (Answer None)
  | Some n =>
      command <- getCommand (guildId context) n ;;
      match command with
      | None => ret (Found (n, None))
      | Some c => ret (Found (c.1, Some c.2))
      end
  end.

Definition requestSettableCommand (context : Context)
    (commandName : option string) (allowQuery : bool)
    : M (Request (string * option StoredGuildCommand)) :=
  m <- requestCommand context commandName allowQuery ;;
  match m with
  | Answer a => ret (Answer a)
  | Found (n, c) => ret (Found (n, c))
  end.

(** [requestEditableCommand]; [allowManaged] and [allowHidden] are the
    options [managed] and [hidden], which default to [false] and [true]. *)
Definition requestEditableCommand (context : Context)
    (commandName : option string) (allowManaged allowHidden allowQuery : bool)
    : M (Request NamedStoredGuildCommand) :=
  m <- requestSettableCommand context commandName allowQuery ;;
  match m with
  | Answer a => ret (Answer a)
  | Found (n, None) =>
      ret (Answer (Some ("❌ The `" ++ n ++ "` custom command doesn't exist!")))
  | Found (n, Some c) =>
      if negb allowManaged && isManaged c
      then ret (Answer (Some ("❌ The `" ++ n ++ "` custom command is a managed command")))
      else if negb allowHidden && isHidden c
      then ret (Answer (Some ("❌ The `" ++ n ++ "` custom command is a hidden command")))
      else ret (Found (n, c))
  end.

Definition requestCreatableCommand (context : Context)
    (commandName : option string) (allowQuery : bool) : M (Request string) :=
  m <- requestCommand context commandName allowQuery ;;
  match m with
  | Answer a => ret (Answer a)
  | Found (n, Some _) =>
      ret (Answer (Some ("❌ The `" ++ n ++ "` custom command already exists!")))
  | Found (n, None) => ret (Found n)
  end.

(** The result of the static analysis: [bbtag.check]. *)
Record Analysis := { errors : list string; warnings : list string }.

Definition errorsHeader : string :=
  "❌ There were errors with the bbtag you provided!".

(** The answer of [editCommand] and [setCommand] for a command that
    [guard.isAliasedCustomCommand] recognises. A missing name is printed by
    the template as the word undefined. *)
Definition aliasMessage (commandName : option string)
    (c : StoredAliasedGuildCommand) : string :=
  "❌ The `" ++ default "undefined" commandName
    ++ "` custom command is an alias to the tag `" ++ alias c ++ "`".

(** The store (its table and the writes issued to it) is as it was. *)
Definition untouched (w w' : World) : Prop :=
  commands w' = commands w ∧ storeCalls w' = storeCalls w.

(** The three operations that submit a script. *)
Inductive Operation := Create | Edit | Set_.

Section Manager.

(** The analyser of the engine and the printer of its results belong to
    the engine; the manager only calls them. *)
Variable check : string -> Analysis.
Variable stringifyAnalysis : Analysis -> string.

Definition saveCommand (context : Context) (operation commandName : string)
    (given : option string) (currentCommand : option StoredRawGuildCommand)
    : M (option string) :=
  script <- requestCommandContent given ;;
  match script with
  | None => ret None
  | Some script =>
      let analysis := check script in
      if (0 <? List.length (errors analysis))%nat
      then ret (Some (errorsHeader ++ nl ++ stringifyAnalysis analysis))
      else
        let command :=
          {| content := script;
             author := authorId context;
             authorizer := Some (authorId context);
             hidden := Some (default (startsWith "_" commandName)
                                     (currentCommand ≫= hidden));
             managed := None;
             flags := currentCommand ≫= flags;
             cooldown := currentCommand ≫= cooldown;
             help := currentCommand ≫= help;
             lang := currentCommand ≫= lang;
             roles := currentCommand ≫= roles;
             uses := currentCommand ≫= uses |} in
        _ <- dbSetCommand (guildId context) commandName (RawCommand command) ;;
        ret (Some ("✅ Custom command `" ++ commandName ++ "` " ++ operation
                     ++ "." ++ nl ++ stringifyAnalysis analysis))
  end.

Definition createCommand (context : Context) (commandName given : option string)
    : M (option string) :=
  if negb (isGuildCommandContext context) then ret (Some notOnGuild)
  else
    m <- requestCreatableCommand context commandName true ;;
    match m with
    | Answer a => ret a
    | Found n => saveCommand context "created" n given None
    end.

Definition editCommand (context : Context) (commandName given : option string)
    : M (option string) :=
  if negb (isGuildCommandContext context) then ret (Some notOnGuild)
  else
    m <- requestEditableCommand context commandName false true true ;;
    match m with
    | Answer a => ret a
    | Found (n, AliasedCommand a) => ret (Some (aliasMessage commandName a))
    | Found (n, RawCommand r) => saveCommand context "edited" n given (Some r)
    end.

Definition setCommand (context : Context) (commandName given : option string)
    : M (option string) :=
  if negb (isGuildCommandContext context) then ret (Some notOnGuild)
  else
    m <- requestSettableCommand context commandName true ;;
    match m with
    | Answer a => ret a
    | Found (n, Some (AliasedCommand a)) =>
        ret (Some (aliasMessage commandName a))
    | Found (n, Some (RawCommand r)) => saveCommand context "set" n given (Some r)
    | Found (n, None) => saveCommand context "set" n given None
    end.

Definition submit (op : Operation) : Context -> option string -> option string
    -> M (option string) :=
  match op with
  | Create => createCommand
  | Edit => editCommand
  | Set_ => setCommand
  end.

(** One command was written, and its script had passed the analysis. *)
Definition savedClean (context : Context) (w w' : World) : Prop :=
  ∃ n c,
    errors (check (content c)) = []
    ∧ commands w' = <[(guildId context, n) := RawCommand c]> (commands w)
    ∧ storeCalls w' = (storeCalls w ++ [SetCommand (guildId context) n (RawCommand c)])%list.

Definition outcome (context : Context) (w w' : World) : Prop :=
  untouched w w' ∨ savedClean context w w'.

End Manager.

End CustomCommand.

(* ===================================================================== *)
(** ** The database connector                                              *)
(* ===================================================================== *)
Module Database.

(** [maxAttempts] is a number that defaults to [Infinity]. *)
Inductive Attempts :=
| Finite (n : nat)
| Infinity.

(** [attempt < maxAttempts] *)
Definition below (attempt : nat) (maxAttempts : Attempts) : bool :=
  match maxAttempts with
  | Finite n => (attempt <? n)%nat
  | Infinity => true
  end.

(** What the connector does, oldest first. The members of a
    [Promise.all] run interleaved; [All] keeps the effects of each member
    apart, in the order of the array. *)
Inductive Effect :=
| Connect (dbName : string) (attempt : nat) (ok : bool)
| LogInit (dbName : string) (attempt : nat)
| LogError (dbName : string) (attempt : nat) (intervalMs : nat)
| Sleep (ms : nat)
| Migrate (table : string) (ok : bool)
| WatchChanges (table : string)
| All (members : list (list Effect)).

(** The loop of [retryConnect], entered with the current value of
    [attempt]. [connect k] tells whether the [k]-th call of the connect
    thunk resolves. The loop has no bound of its own when [maxAttempts]
    is [Infinity], hence the fuel; [None] means the fuel ran out. *)
Fixpoint retryLoop (fuel : nat) (dbName : string) (connect : nat -> bool)
    (intervalMs : nat) (maxAttempts : Attempts) (attempt : nat)
    : option (list Effect) :=
  match fuel with
  | O => None
  | S fuel' =>
      if below attempt maxAttempts then
        let attempt := S attempt in
        if connect attempt
        then Some [Connect dbName attempt true; LogInit dbName attempt]
        else
          rest ← retryLoop fuel' dbName connect intervalMs maxAttempts attempt;
          Some ([Connect dbName attempt false;
                 LogError dbName attempt intervalMs;
                 Sleep intervalMs] ++ rest)%list
      else Some []
  end.

(** [retryConnect]: the loop from [attempt = 0]. Every exit of the loop
    falls off the end of the function, so the promise resolves. *)
Definition retryConnect (fuel : nat) (dbName : string) (connect : nat -> bool)
    (intervalMs : nat) (maxAttempts : Attempts)
    : option (Fallible unit * list Effect) :=
  log ← retryLoop fuel dbName connect intervalMs maxAttempts 0;
  Some (Resolved tt, log).

(** How the four backing databases and the migrations behave. *)
Record Backends := {
  rethinkDb : nat -> bool;
  cassandra : nat -> bool;
  postgres : nat -> bool;
  airtable : nat -> bool;
  migrates : string -> bool
}.

(** [this.connect] is either the method of the class or the function the
    first call puts in its place. *)
Inductive ConnectMethod :=
| ClassMethod
| ResolveAtOnce.

Record Database := {
  connectMethod : ConnectMethod;
  journal : list Effect
}.

Definition tables : list string :=
  ["guilds"; "users"; "vars"; "events"; "tags"; "chatlogs"; "dumps"].

Definition migrations (b : Backends) : Effect :=
  All ((fun t => [Migrate t (migrates b t)]) <$> tables).

Definition watchers : list Effect :=
  [WatchChanges "guilds"; WatchChanges "users"].

(** The body of the class method [connect]. *)
Definition connectBody (fuel : nat) (b : Backends) (db : Database)
    : option (Fallible unit * Database) :=
  c1 ← retryConnect fuel "rethinkDb" (rethinkDb b) 5000 (Finite 10);
  c2 ← retryConnect fuel "cassandra" (cassandra b) 5000 (Finite 10);
  c3 ← retryConnect fuel "postgresdb" (postgres b) 5000 (Finite 10);
  c4 ← retryConnect fuel "airtable" (airtable b) 5000 (Finite 10);
  let connected := All [c1.2; c2.2; c3.2; c4.2] in
  if forallb (migrates b) tables
  then Some (Resolved tt,
             {| connectMethod := ResolveAtOnce;
                journal := journal db ++ [connected; migrations b] ++ watchers |})
  else Some (Rejected,
             {| connectMethod := ResolveAtOnce;
                journal := journal db ++ [connected; migrations b] |}).

(** A call of [db.connect()]. *)
Definition connect (fuel : nat) (b : Backends) (db : Database)
    : option (Fallible unit * Database) :=
  match connectMethod db with
  | ClassMethod => connectBody fuel b db
  | ResolveAtOnce => Some (Resolved tt, db)
  end.

(** [n] further calls, one after the other. *)
Fixpoint connectAgain (n fuel : nat) (b : Backends) (db : Database)
    : option (list (Fallible unit) * Database) :=
  match n with
  | O => Some ([], db)
  | S n' =>
      r ← connect fuel b db;
      rs ← connectAgain n' fuel b r.2;
      Some (r.1 :: rs.1, rs.2)
  end.

Definition attempts (log : list Effect) : nat :=
  List.length (List.filter (fun e => match e with Connect _ _ _ => true | _ => false end) log).

Definition failures (log : list Effect) : nat :=
  List.length (List.filter (fun e => match e with Connect _ _ false => true | _ => false end) log).

(** Every failed attempt is followed by its error line and the pause. *)
Fixpoint pausesAfterFailures (intervalMs : nat) (log : list Effect) : bool :=
  match log with
  | [] => true
  | Connect _ _ false :: rest =>
      match rest with
      | LogError _ _ i :: Sleep ms :: rest' =>
          (i =? intervalMs)%nat && (ms =? intervalMs)%nat
            && pausesAfterFailures intervalMs rest'
      | _ => false
      end
  | _ :: rest => pausesAfterFailures intervalMs rest
  end.

End Database.

(* ===================================================================== *)
(** ** The concat binding                                                  *)
(* ===================================================================== *)
Module ConcatBinding.

(** A positional argument, or several merged into one. *)
Record FlagResultValue := { raw : string; value : string }.

(** The part of the binder state the binding reads: [state.flags._] and
    [state.argIndex]. *)
Record CommandBinderState := {
  positional : list FlagResultValue;
  argIndex : nat
}.

Record ConcatBinding := {
  name : string;
  fallback : option string;
  useRaw : bool
}.

Section Binder.

(** The base class and the argument list give [getBindingResult],
    [bindingError] and [merge]; [parse] is handed to the constructor. The
    continuation [this.next] is the same in every call and is left
    inside [getBindingResult]. *)
Context {ParseResult BindingResult : Type}.
Variable merge : list FlagResultValue -> Z -> Z -> FlagResultValue.
Variable getBindingResult : CommandBinderState -> Z -> ParseResult -> BindingResult.
Variable bindingError : CommandBinderState -> string -> BindingResult.
Variable parse : string -> CommandBinderState -> ParseResult.

Definition remaining (state : CommandBinderState) : Z :=
  Z.of_nat (List.length (positional state)) - Z.of_nat (argIndex state).

Definition notEnough (this : ConcatBinding) : string :=
  "❌ Not enough arguments! `" ++ name this ++ "` is required".

(** One turn of the [for] loop. *)
Definition candidate (this : ConcatBinding) (state : CommandBinderState) (i : Z)
    : BindingResult :=
  let args := merge (positional state) (Z.of_nat (argIndex state))
                    (Z.of_nat (argIndex state) + i + 1) in
  let arg := if useRaw this then raw args else value args in
  getBindingResult state i (parse arg state).

(** The generator, as the list of what it yields. The loop runs for
    [i = 0, 1, ..., length - argIndex]. *)
Definition binder (this : ConcatBinding) (state : CommandBinderState)
    : list BindingResult :=
  if (List.length (positional state) =? argIndex state)%nat then
    match fallback this with
    | Some f => [getBindingResult state 0 (parse f state)]
    | None => [bindingError state (notEnough this)]
    end
  else candidate this state <$> seqZ 0 (remaining state + 1).

End Binder.

End ConcatBinding.

(* ===================================================================== *)
(** ** Flags, installing, importing and exporting; measures               *)
(* ===================================================================== *)
Module Flags.
Import CustomCommand.

(** [args[0].replace(/[^a-z]/g, '').toLowerCase()] *)
Definition flagWord (first : string) : string := toLowerCase (keep isLower first).

Definition newline : ascii := "010"%char.

(** [.replace(/\n/g, ' ')] *)
Fixpoint spaceForNewline (s : string) : string :=
  match s with
  | EmptyString => EmptyString
  | String c rest =>
      String (if Ascii.eqb c newline then " "%char else c) (spaceForNewline rest)
  end.

(** [args.slice(1).join(' ').replace(/\n/g, ' ')] *)
Definition flagDesc (more : list string) : string :=
  spaceForNewline (String.concat " " more).

Definition hasFlag (letter : string) (flags : list FlagDefinition) : bool :=
  existsb (fun f => String.eqb (flag f) letter) flags.

Definition hasWord (w : string) (flags : list FlagDefinition) : bool :=
  existsb (fun f => String.eqb (word f) w) flags.

(** The loop of [addCommandFlags] over [Object.keys(addFlags)]: an entry
    is a flag letter with the words that follow it, if any. The loop
    either ends early with an answer or ends with the extended list. *)
Fixpoint addFlags (flags : list FlagDefinition)
    (entries : list (string * option (list string)))
    : string + list FlagDefinition :=
  match entries with
  | [] => inr flags
  | (letter, args) :: rest =>
      match args with
      | None | Some [] =>
          inl ("❌ No word was specified for the `" ++ letter ++ "` flag")
      | Some (first :: more) =>
          if hasFlag letter flags
          then inl ("❌ The flag `" ++ letter ++ "` already exists!")
          else
            let w := flagWord first in
            if hasWord w flags
            then inl ("❌ A flag with the word `" ++ w ++ "` already exists!")
            else addFlags
                   (flags ++ [{| flag := letter; word := w; desc := flagDesc more |}])
                   rest
      end
  end.

(** The destructuring [{ undefined: _, ...addFlags }] drops the entry
    called undefined. *)
Definition withoutUndefined (parsed : list (string * option (list string)))
    : list (string * option (list string)) :=
  List.filter (fun e => negb (String.eqb e.1 "undefined")) parsed.

(** The write [setCommandProp(guild, name, 'flags', flags)]. *)
Record FlagsWrite := {
  fw_guild : string;
  fw_command : string;
  fw_flags : list FlagDefinition
}.

(** [addCommandFlags]. [parsed] is what [parse.flags([], flagsRaw)] gave,
    as its keys in order with their values. The result is the answer and
    the write that was issued, if any. *)
Definition addCommandFlags (context : Context) (commandName : string)
    (parsed : list (string * option (list string)))
    : M (option string * option FlagsWrite) :=
  if negb (isGuildCommandContext context) then ret (Some notOnGuild, None)
  else
    m <- requestEditableCommand context (Some commandName) false true true ;;
    match m with
    | Answer a => ret (a, None)
    | Found (n, AliasedCommand a) =>
        ret (Some (aliasMessage (Some commandName) a), None)
    | Found (n, RawCommand r) =>
        match addFlags (default [] (flags r)) (withoutUndefined parsed) with
        | inl answer => ret (Some answer, None)
        | inr fs =>
            ret (Some ("✅ The flags for `" ++ n ++ "` have been updated."),
                 Some {| fw_guild := guildId context; fw_command := n; fw_flags := fs |})
        end
    end.

(** The letters, and the words, of a list of flags are pairwise distinct. *)
Definition distinctFlags (flags : list FlagDefinition) : Prop :=
  NoDup (flag <$> flags) ∧ NoDup (word <$> flags).

Definition lowercaseWord (w : string) : Prop :=
  ∀ c, In c (list_ascii_of_string w) → isLower c = true.

Definition oneLine (d : string) : Prop :=
  ¬ In newline (list_ascii_of_string d).

End Flags.

Module Install.
Import CustomCommand.

(** [ShrunkCommand]: a stored command without name, author and
    authorizer. *)
Record ShrunkCommand := {
  sc_content : string;
  sc_cooldown : option Z;
  sc_flags : option (list FlagDefinition);
  sc_help : option string;
  sc_hidden : option bool;
  sc_lang : option string;
  sc_managed : option bool;
  sc_roles : option (list string);
  sc_uses : option Z
}.

Record ShrunkFilteredAutoresponse := {
  term : string;
  regex : bool;
  executes : ShrunkCommand
}.

(** [Shrinkwrap]. The member [cc] is an object used as a map; it is given
    by its keys in the order of [Object.keys], each with its value, so the
    keys are pairwise distinct. [are] is [null] or holds [executes]. *)
Record Shrinkwrap := {
  cc : list (string * ShrunkCommand);
  ar : list ShrunkFilteredAutoresponse;
  are : option ShrunkCommand
}.

Record SignedShrinkwrap := {
  signature : option string;
  payload : Shrinkwrap
}.

(** What [getShrinkwrapData] hands over: the commands of the guild by
    name, its autoresponses by the command they execute, and the
    autoresponse to everything, if there is one. *)
Record GuildFilteredAutoresponse := {
  g_executes : string;
  g_regex : bool;
  g_term : string
}.

Record ShrinkwrapData := {
  commands : gmap string NamedStoredGuildCommand;
  autoResponses : gmap string (list GuildFilteredAutoresponse);
  everythingAutoResponse : option string
}.

(** The writes of the import steps. *)
Inductive Call :=
| SetCommand (guild commandName : string) (command : StoredRawGuildCommand)
| AddAutoresponse (guild : string) (term : string) (regex : bool) (executes : string)
| SetEverything (guild : string) (executes : string).

(** [{ ...command, author }] *)
Definition authored (authorId : string) (c : ShrunkCommand) : StoredRawGuildCommand :=
  {| content := sc_content c; author := authorId; authorizer := None;
     hidden := sc_hidden c; managed := sc_managed c; flags := sc_flags c;
     cooldown := sc_cooldown c; help := sc_help c; lang := sc_lang c;
     roles := sc_roles c; uses := sc_uses c |}.

(** [{ ...executes, author, hidden: true, managed: true }] *)
Definition authoredManaged (authorId : string) (c : ShrunkCommand)
    : StoredRawGuildCommand :=
  {| content := sc_content c; author := authorId; authorizer := None;
     hidden := Some true; managed := Some true; flags := sc_flags c;
     cooldown := sc_cooldown c; help := sc_help c; lang := sc_lang c;
     roles := sc_roles c; uses := sc_uses c |}.

(** The template [_autoresponse_${arIndex}]. *)
Definition autoresponseName (arIndex : Z) : string :=
  "_autoresponse_" ++ pretty arIndex.

(** [while (commands[commandName = name(++arIndex)] !== undefined);]
    The loop has no bound of its own, hence the fuel; [None] means the fuel
    ran out. The result is the name and the new value of [arIndex]. *)
Fixpoint nextFree (fuel : nat) (known : gmap string NamedStoredGuildCommand)
    (arIndex : Z) : option (string * Z) :=
  match fuel with
  | O => None
  | S fuel' =>
      let arIndex := (arIndex + 1)%Z in
      let commandName := autoresponseName arIndex in
      match known !! commandName with
      | Some _ => nextFree fuel' known arIndex
      | None => Some (commandName, arIndex)
      end
  end.

(** An import step: one of the three closures pushed on [importSteps]. *)
Inductive Step :=
| ImportCommand (commandName : string) (command : ShrunkCommand)
| ImportAutoresponse (autoresponse : ShrunkFilteredAutoresponse)
| ImportEverything (are : ShrunkCommand).

(** Running a step. The steps share the variable [arIndex]. *)
Definition runStep (fuel : nat) (known : gmap string NamedStoredGuildCommand)
    (guild authorId : string) (step : Step) (arIndex : Z)
    : option (list Call * Z) :=
  match step with
  | ImportCommand commandName command =>
      Some ([SetCommand guild commandName (authored authorId command)], arIndex)
  | ImportAutoresponse autoresponse =>
      found ← nextFree fuel known arIndex;
      Some ([AddAutoresponse guild (term autoresponse) (regex autoresponse) found.1;
             SetCommand guild found.1 (authoredManaged authorId (executes autoresponse))],
            found.2)
  | ImportEverything are =>
      found ← nextFree fuel known arIndex;
      Some ([SetEverything guild found.1;
             SetCommand guild found.1 (authoredManaged authorId are)],
            found.2)
  end.

(** [for (const step of importSteps) await step();] *)
Fixpoint runSteps (fuel : nat) (known : gmap string NamedStoredGuildCommand)
    (guild authorId : string) (steps : list Step) (arIndex : Z)
    : option (list Call) :=
  match steps with
  | [] => Some []
  | step :: rest =>
      r ← runStep fuel known guild authorId step arIndex;
      calls ← runSteps fuel known guild authorId rest r.2;
      Some (r.1 ++ calls)%list
  end.

Definition code (s : string) : string := "`" ++ s ++ "`".

(** [`\`${term}\`${regex ? ' (regex)' : ''}`] *)
Definition arName (a : ShrunkFilteredAutoresponse) : string :=
  code (term a) ++ (if regex a then " (regex)" else "").

Definition key : string := "thanks, shrinkwrapper!".

Definition unsignedWarning : string :=
  "⚠ **Warning**: This installation file is **unsigned**. It did not come from me. Please double check to make sure you want to go through with this.".

Definition incorrectWarning : string :=
  "🛑 **Warning**: This installation file's signature is **incorrect**. There is a 100% chance that it has been tampered with. Please double check to make sure you want to go through with this.".

(** What is planned: the lines shown to the user and the steps. *)
Definition Plan : Type := list string * list Step.

Definition say (lines : list string) (p : Plan) : Plan := ((p.1 ++ lines)%list, p.2).

Definition sayAndDo (line : string) (step : Step) (p : Plan) : Plan :=
  ((p.1 ++ [line])%list, (p.2 ++ [step])%list).

Section Installer.

(** [String.prototype.toLowerCase], and [signShrinkwrap] under the
    configuration of the bot. *)
Variable jsToLowerCase : string -> string.
Variable signShrinkwrap : Shrinkwrap -> string.

(** The loop over [Object.keys(shrinkwrap.cc)]. *)
Fixpoint planCommands (known : gmap string NamedStoredGuildCommand)
    (entries : list (string * ShrunkCommand)) (p : Plan) : Plan :=
  match entries with
  | [] => p
  | (commandName, command) :: rest =>
      if decide (is_Some (known !! jsToLowerCase commandName))
      then planCommands known rest
             (say ["❌ Ignore the command " ++ code commandName
                   ++ " as a command with that name already exists"] p)
      else planCommands known rest
             (sayAndDo ("✅ Import the command " ++ code commandName)
                       (ImportCommand commandName command) p)
  end.

(** The loop over [shrinkwrap.ar]; [arCount] is counted up at every
    turn. *)
Fixpoint planAutoresponses (arCount : nat)
    (entries : list ShrunkFilteredAutoresponse) (p : Plan) : Plan :=
  match entries with
  | [] => p
  | autoresponse :: rest =>
      if (20 <=? arCount)%nat
      then planAutoresponses (S arCount) rest
             (say ["❌ Ignore the autoresponse to " ++ arName autoresponse
                   ++ " as the limit has been reached."] p)
      else planAutoresponses (S arCount) rest
             (sayAndDo ("✅ Import the autoresponse " ++ arName autoresponse)
                       (ImportAutoresponse autoresponse) p)
  end.

Definition planEverything (existing : option string) (are : option ShrunkCommand)
    (p : Plan) : Plan :=
  match are with
  | None => p
  | Some are =>
      match existing with
      | Some _ => say ["❌ Ignore everything autoresponse as one already exists"] p
      | None => sayAndDo "✅ Import the autoresponse to everything" (ImportEverything are) p
      end
  end.

(** [Object.values(autoResponses).reduce((c, a) => c + a.length, 0)] *)
Definition countAutoresponses (m : gmap string (list GuildFilteredAutoresponse)) : nat :=
  map_fold (fun _ a c => (c + List.length a)%nat) 0%nat m.

Definition signatureLines (s : SignedShrinkwrap) : list string :=
  match signature s with
  | None => [unsignedWarning; ""]
  | Some sig =>
      if String.eqb sig (signShrinkwrap (payload s)) then []
      else [incorrectWarning; ""]
  end.

Definition plan (data : ShrinkwrapData) (s : SignedShrinkwrap) : Plan :=
  let p0 : Plan :=
    ((signatureLines s
      ++ ["Salutations! You have discovered the super handy CommandInstaller9000!";
          ""; "If you decide to proceed, this will:"])%list, []) in
  let p1 := planCommands (commands data) (cc (payload s)) p0 in
  let p2 := planAutoresponses (countAutoresponses (autoResponses data))
              (ar (payload s)) p1 in
  let p3 := planEverything (everythingAutoResponse data) (are (payload s)) p2 in
  say ["This will also:"; " - Set you as the author for all imported commands";
       ""; "If you wish to continue, please say " ++ code key] p3.

(** What a run of [installCommands] comes to: the question put to the
    user, if it got that far, the answer of the command, and the writes. *)
Record Outcome := {
  question : option string;
  answer : string;
  calls : list Call
}.

Definition refuse (text : string) : option Outcome :=
  Some {| question := None; answer := text; calls := [] |}.

(** [installCommands]. [attachment] is the address of the first
    attachment of the message, [fetch] is [requestSafe] followed by
    [mapSignedShrinkwrap] ([None]: not valid), [data] is what
    [getShrinkwrapData] returns and [reply] the content of the answer to
    the question, if one came. [None] means the fuel ran out. *)
Definition installCommands (fuel : nat) (context : Context)
    (shrinkwrapUrl attachment : option string)
    (fetch : string -> option SignedShrinkwrap)
    (data : ShrinkwrapData) (reply : option string) : option Outcome :=
  if negb (isGuildCommandContext context) then refuse notOnGuild
  else
    match (match shrinkwrapUrl with Some u => Some u | None => attachment end) with
    | None => refuse "❌ You have to upload the installation file, or give me a URL to one."
    | Some url =>
        match fetch url with
        | None => refuse "❌ Your installation file was malformed."
        | Some signedShrinkwrap =>
            let p := plan data signedShrinkwrap in
            let asked := Some (String.concat nl p.1) in
            if negb (bool_decide (reply = Some key))
            then Some {| question := asked; answer := "✅ Maybe next time then.";
                         calls := [] |}
            else
              written ← runSteps fuel (commands data) (guildId context)
                          (authorId context) p.2 (-1);
              Some {| question := asked;
                      answer := "✅ No problem, my job here is done.";
                      calls := written |}
        end
    end.

End Installer.

(** *** Vocabulary for the properties *)

(** The commands written, and the names picked for autoresponses. *)
Definition writtenCommands (l : list Call) : list (string * StoredRawGuildCommand) :=
  omap (fun c => match c with SetCommand _ n r => Some (n, r) | _ => None end) l.

Definition pickedNames (l : list Call) : list string :=
  omap (fun c => match c with
                 | AddAutoresponse _ _ _ n | SetEverything _ n => Some n
                 | SetCommand _ _ _ => None
                 end) l.

Definition addedAutoresponses (l : list Call) : nat :=
  List.length (List.filter (fun c => match c with AddAutoresponse _ _ _ _ => true | _ => false end) l).

Definition autoresponseSteps (steps : list Step) : nat :=
  List.length (List.filter (fun s => match s with ImportAutoresponse _ => true | _ => false end) steps).

(** The index [i] comes after [a] and its name is free. *)
Definition freshAbove (known : gmap string NamedStoredGuildCommand) (a i : Z) : Prop :=
  (a < i)%Z ∧ known !! autoresponseName i = None.

(** How a written command came about. *)
Definition provenance (known : gmap string NamedStoredGuildCommand) (aid : string)
    (steps : list Step) (entry : string * StoredRawGuildCommand) : Prop :=
  (∃ c, ImportCommand entry.1 c ∈ steps ∧ entry.2 = authored aid c)
  ∨ (known !! entry.1 = None ∧ ∃ c, entry.2 = authoredManaged aid c).

(** Every command step is for a name unknown in lowercase. *)
Definition unknownCommands (jsToLowerCase : string -> string)
    (known : gmap string NamedStoredGuildCommand)
    (steps : list Step) : Prop :=
  ∀ n c, ImportCommand n c ∈ steps → known !! jsToLowerCase n = None.

End Install.

Module TagImport.
Import CustomCommand.

(** What [importCommand] reads of a stored tag. *)
Record StoredTag := { tag_name : string; tag_author : string }.

Definition importedAs (context : Context) (tagName : string) (tag : StoredTag)
    : StoredGuildCommand :=
  AliasedCommand {| alias_author := tag_author tag;
                    alias := tagName;
                    alias_authorizer := Some (authorId context) |}.

Section Importer.

(** The tag table, and [humanize.fullName] of the user the table of
    users has for an id and of the caller. *)
Variable getTag : string -> option StoredTag.
Variable fullNameOf : string -> string.
Variable callerName : string.

(** [importCommand]; the caller passes the tag name for a missing command
    name. *)
Definition importCommand (context : Context) (tagName commandName : string)
    : M string :=
  if negb (isGuildCommandContext context) then ret notOnGuild
  else
    let commandName := normalizeName commandName in
    existing <- getCommand (guildId context) commandName ;;
    match existing with
    | Some _ => ret ("❌ The `" ++ commandName ++ "` custom command already exists!")
    | None =>
        match getTag tagName with
        | None => ret ("❌ The `" ++ tagName ++ "` tag doesnt exist!")
        | Some tag =>
            _ <- dbSetCommand (guildId context) commandName
                   (importedAs context tagName tag) ;;
            ret ("✅ The tag `" ++ tag_name tag ++ "` by **"
                 ++ fullNameOf (tag_author tag) ++ "** has been imported as `"
                 ++ commandName ++ "` and is authorized by **" ++ callerName
                 ++ "**. ✅")
        end
    end.

End Importer.

(** A tag table with the one tag [poll]. *)
Definition pollTag (tagName : string) : option StoredTag :=
  if String.eqb tagName "poll"
  then Some {| tag_name := "poll"; tag_author := "u9" |}
  else None.

End TagImport.

Module Shrinkwrapper.
Import CustomCommand.

(** An object, by its own properties in the order in which a spread,
    [Object.keys] and [JSON.stringify] go through them: the names that are
    array indices in ascending order, then the other names in the order in
    which they were created. *)
Definition JsObject : Type := list (string * JsValue).

Definition digitValue (c : ascii) : option N :=
  if isDigit c then Some (N.of_nat (nat_of_ascii c) - 48)%N else None.

Fixpoint digitsValue (acc : N) (s : string) : option N :=
  match s with
  | EmptyString => Some acc
  | String c rest =>
      match digitValue c with
      | Some d => digitsValue (10 * acc + d)%N rest
      | None => None
      end
  end.

(** A property name is an array index when it is the decimal form of a
    whole number below 2^32 - 1. *)
Definition arrayIndex (k : string) : option N :=
  match k with
  | EmptyString => None
  | _ =>
      match digitsValue 0 k with
      | Some n =>
          if bool_decide (pretty n = k) && (n <? 4294967295)%N then Some n else None
      | None => None
      end
  end.

Definition hasOwn (k : string) (o : JsObject) : bool :=
  existsb (fun kv => String.eqb kv.1 k) o.

(** The value of an own property is replaced where it stands. *)
Fixpoint replaceMember (k : string) (v : JsValue) (o : JsObject) : JsObject :=
  match o with
  | [] => []
  | (k', v') :: rest =>
      if String.eqb k' k then (k, v) :: rest
      else (k', v') :: replaceMember k v rest
  end.

(** A new array index goes after the smaller indices. *)
Fixpoint insertIndex (n : N) (k : string) (v : JsValue) (o : JsObject) : JsObject :=
  match o with
  | [] => [(k, v)]
  | (k', v') :: rest =>
      match arrayIndex k' with
      | Some n' =>
          if (n' <? n)%N then (k', v') :: insertIndex n k v rest
          else (k, v) :: (k', v') :: rest
      | None => (k, v) :: (k', v') :: rest
      end
  end.

(** [o[k] = v] on an object without setters. *)
Definition setProperty (k : string) (v : JsValue) (o : JsObject) : JsObject :=
  if hasOwn k o then replaceMember k v o
  else
    match arrayIndex k with
    | Some n => insertIndex n k v o
    | None => (o ++ [(k, v)])%list
    end.

(** What [getShrinkwrapData] hands over, as [shrinkwrapCommands] reads
    it: the commands of the guild by name; the autoresponses, each the
    object that is stored, by the command they execute; and the member
    [executes] of the autoresponse to everything, if there is one. *)
Record GuildData := {
  commands : gmap string NamedStoredGuildCommand;
  autoResponses : gmap string (list JsObject);
  everythingAutoResponse : option string
}.

(** The [Shrinkwrap] under construction, [{ cc: {}, ar: [], are: null }]
    at first. The member [cc] is an object used as a map, [are] is [null]
    or an object. *)
Record Bundle := {
  b_cc : JsObject;
  b_ar : list JsObject;
  b_are : option JsObject
}.

Definition emptyBundle : Bundle := {| b_cc := []; b_ar := []; b_are := None |}.

(** What the command answers: a text, or the file with the signature and
    the payload that [JSON.stringify] then writes out. *)
Inductive Result :=
| Text (answer : string)
| File (answer : string) (signature : string) (payload : Bundle).

Definition exportKey : string := "thanks, shrinkwrapper!".

(** The members [term] and [regex] of a stored autoresponse, a string and
    a boolean by its type. [None]: they are something else, which this
    model does not cover. *)
Definition readAutoresponse (a : JsObject) : option (string * bool) :=
  match property "term" a, property "regex" a with
  | JString t, JBool r => Some (t, r)
  | _, _ => None
  end.

Definition exportArLine (term : string) (regex : bool) : string :=
  "   - Export the associated autoresponse to " ++ Install.code term
    ++ (if regex then " (regex)" else "").

(** [for (const ar of ars)]: a line for the user, and
    [{ ...ar, executes: shrinkCommand(command) }] pushed on [ar]. *)
Fixpoint pushAutoresponses (shrunk : JsValue) (ars : list JsObject)
    (st : Bundle * list string) : option (Bundle * list string) :=
  match ars with
  | [] => Some st
  | a :: rest =>
      match readAutoresponse a with
      | None => None
      | Some (term, regex) =>
          pushAutoresponses shrunk rest
            ({| b_cc := b_cc st.1;
                b_ar := b_ar st.1 ++ [setProperty "executes" shrunk a];
                b_are := b_are st.1 |},
             st.2 ++ [exportArLine term regex])%list
      end
  end.

Section Exporter.

(** [String.prototype.toLowerCase]; the property names that the objects
    [commands] and [autoResponses] inherit rather than own, for which
    [commands[name]] is not a lookup among the commands; and
    [signShrinkwrap] under the configuration of the bot. *)
Variable jsToLowerCase : string -> string.
Variable inherited : string -> bool.
Variable signShrinkwrap : Bundle -> string.

(** One turn of the loop over [commandNames]. [None]: the name is an
    inherited one or an autoresponse is not of its type, which this model
    does not cover. *)
Definition exportOne (data : GuildData) (requested : string)
    (st : Bundle * list string) : option (Bundle * list string) :=
  let commandName := jsToLowerCase requested in
  if inherited commandName then None
  else
    match commands data !! commandName with
    | None => Some st
    | Some (_, AliasedCommand _) => Some st
    | Some (n, RawCommand r) =>
        let shrunk := JObject (shrinkCommand (n, r)) in
        let line := " - Export the custom command " ++ Install.code commandName in
        let st1 := (st.1, st.2 ++ [line])%list in
        match autoResponses data !! commandName with
        | Some ars => pushAutoresponses shrunk ars st1
        | None =>
            if bool_decide (everythingAutoResponse data = Some commandName)
            then Some ({| b_cc := b_cc st1.1; b_ar := b_ar st1.1;
                          b_are := Some [("executes", shrunk)] |},
                       st1.2 ++ ["   - Export the associated everything autoresponse"])%list
            else Some ({| b_cc := setProperty commandName shrunk (b_cc st1.1);
                          b_ar := b_ar st1.1; b_are := b_are st1.1 |}, st1.2)
        end
    end.

Fixpoint exportAll (data : GuildData) (commandNames : list string)
    (st : Bundle * list string) : option (Bundle * list string) :=
  match commandNames with
  | [] => Some st
  | requested :: rest =>
      st1 ← exportOne data requested st;
      exportAll data rest st1
  end.

(** [shrinkwrapCommands]. The result is the question put to the user, if
    it got that far, and what the command answers. *)
Definition shrinkwrapCommands (context : Context) (commandNames : list string)
    (data : GuildData) (reply : option string)
    : option (option string * Result) :=
  if negb (isGuildCommandContext context) then Some (None, Text notOnGuild)
  else
    st ← exportAll data commandNames
           (emptyBundle,
            ["Salutations! You have discovered the super handy ShrinkWrapper9000!";
             ""; "If you decide to proceed, this will:"]);
    let last := "If you wish to continue, please say " ++ Install.code exportKey in
    let confirm :=
      (st.2 ++ ["This will not:"; " - Export variables";
                " - Export authors or authorizers"; " - Export depedencies";
                last])%list in
    let asked := Some (String.concat nl confirm) in
    if negb (bool_decide (reply = Some exportKey))
    then Some (asked, Text "✅ Maybe next time then.")
    else Some (asked, File "✅ No problem, my job here is done."
                        (signShrinkwrap st.1) st.1).

End Exporter.

(** *** Vocabulary for the properties *)

(** An exported command is the shrunk form of a command with a body of
    its own that the guild has under the name [k]. *)
Definition exportedFrom (data : GuildData) (k : string) (shrunk : JsValue) : Prop :=
  ∃ n r, commands data !! k = Some (n, RawCommand r)
         ∧ shrunk = JObject (shrinkCommand (n, r)).

(** A command with a body of its own that is behind no autoresponse. *)
Definition plainCommand (data : GuildData) (k : string) : Prop :=
  (∃ n r, commands data !! k = Some (n, RawCommand r))
  ∧ autoResponses data !! k = None
  ∧ everythingAutoResponse data ≠ Some k.

(** Every member of [cc] is a command of the guild that was asked for
    and is behind no autoresponse. *)
Definition commandsFrom (names : list string) (data : GuildData) (cc : JsObject) : Prop :=
  ∀ k shrunk, (k, shrunk) ∈ cc →
    k ∈ names
    ∧ exportedFrom data k shrunk
    ∧ autoResponses data !! k = None
    ∧ everythingAutoResponse data ≠ Some k.

(** An exported autoresponse is an autoresponse of the guild to a command
    that was asked for, with the shrunk form of that command as its member
    [executes]. *)
Definition autoresponseFrom (names : list string) (data : GuildData) (x : JsObject) : Prop :=
  ∃ k ars a shrunk,
    k ∈ names
    ∧ autoResponses data !! k = Some ars
    ∧ a ∈ ars
    ∧ exportedFrom data k shrunk
    ∧ x = setProperty "executes" shrunk a.

(** The exported autoresponse to everything holds the shrunk form of the
    command that the guild's autoresponse to everything executes. *)
Definition everythingFrom (names : list string) (data : GuildData) (x : JsObject) : Prop :=
  ∃ k shrunk,
    k ∈ names
    ∧ everythingAutoResponse data = Some k
    ∧ autoResponses data !! k = None
    ∧ exportedFrom data k shrunk
    ∧ x = [("executes", shrunk)].

(** A bundle holds nothing but what the guild has, for the names asked
    for. *)
Definition faithful (names : list string) (data : GuildData) (b : Bundle) : Prop :=
  NoDup (keys (b_cc b))
  ∧ commandsFrom names data (b_cc b)
  ∧ Forall (autoresponseFrom names data) (b_ar b)
  ∧ (∀ x, b_are b = Some x → everythingFrom names data x).

End Shrinkwrapper.

Module DatabaseMeasures.
Import Database.

(** The time [retryConnect] spends in [sleep], in milliseconds. *)
Fixpoint slept (log : list Effect) : nat :=
  match log with
  | [] => 0
  | Sleep ms :: rest => ms + slept rest
  | _ :: rest => slept rest
  end.

(** What a failed attempt leaves in the journal, and a run of [count]
    failed attempts after attempt [attempt]. *)
Definition failedRound (dbName : string) (intervalMs attempt : nat) : list Effect :=
  [Connect dbName attempt false; LogError dbName attempt intervalMs; Sleep intervalMs].

Fixpoint failedRounds (dbName : string) (intervalMs attempt count : nat)
    : list Effect :=
  match count with
  | O => []
  | S count' =>
      (failedRound dbName intervalMs (S attempt)
       ++ failedRounds dbName intervalMs (S attempt) count')%list
  end.

(** A backend whose migration of the tags table fails. *)
Definition tagsBroken : Backends :=
  {| rethinkDb := fun _ => true;
     cassandra := fun _ => true;
     postgres := fun _ => true;
     airtable := fun _ => true;
     migrates := fun t => negb (String.eqb t "tags") |}.

End DatabaseMeasures.

Module DeleteMeasures.
Import Delete.

Definition lookups (log : list Effect) : nat :=
  List.length (List.filter (fun e => match e with EvGetMessage _ _ _ => true | _ => false end) log).

Definition deletions (log : list Effect) : nat :=
  List.length (List.filter (fun e => match e with EvDeleteMessage _ _ _ => true | _ => false end) log).

End DeleteMeasures.

(* ===================================================================== *)
(** ** Sample inputs                                                       *)
(* ===================================================================== *)
Module DeleteSamples.
Import Delete.

Definition general : Channel := {| channel_id := "c1" |}.
Definition invoking : Message := {| msg_id := "m1"; msg_channel := general |}.
Definition home : Guild := {| guild_id := "g1" |}.

(** A staff member, and a member who is not staff and owns nothing. *)
Definition staffContext : Context :=
  {| isStaff := true; ownsMessage := fun m => String.eqb m "m1";
     channel := general; msg := invoking; guild := home |}.

Definition memberContext : Context :=
  {| isStaff := false; ownsMessage := fun _ => false;
     channel := general; msg := invoking; guild := home |}.

(** A platform on which everything works, one that cannot delete and one
    that cannot fetch. *)
Definition lookup (channelId messageId : string) : Fallible (option Message) :=
  Resolved (Some {| msg_id := messageId;
                    msg_channel := {| channel_id := channelId |} |}).

Definition workingHost : Host :=
  {| parseChannel := fun _ id => Some {| channel_id := id |};
     getMessage := lookup;
     botDeleteMessage := fun _ _ => Resolved tt |}.

Definition cannotDelete : Host :=
  {| parseChannel := fun _ id => Some {| channel_id := id |};
     getMessage := lookup;
     botDeleteMessage := fun _ _ => Rejected |}.

Definition cannotFetch : Host :=
  {| parseChannel := fun _ id => Some {| channel_id := id |};
     getMessage := fun _ _ => Rejected;
     botDeleteMessage := fun _ _ => Resolved tt |}.

Definition quiet : World := {| notCommandMessages := ∅; trace := [] |}.

End DeleteSamples.

Module CustomCommandSamples.
Import CustomCommand.

(** An analyser that objects to a lone opening brace. *)
Definition sampleCheck (script : string) : Analysis :=
  if String.eqb script "{"
  then {| errors := ["Unmatched '{'"]; warnings := [] |}
  else {| errors := []; warnings := [] |}.

Definition sampleStringify (a : Analysis) : string :=
  String.concat nl (errors a).

Definition moderator : Context :=
  {| isGuildCommandContext := true; guildId := "g1"; authorId := "u1" |}.

Definition emptyStore : World :=
  {| commands := ∅; replies := []; storeCalls := [] |}.

Definition greet : NamedStoredRawGuildCommand :=
  ("greet",
   {| content := "Hello {username}"; author := "u1"; authorizer := Some "u2";
      hidden := Some false; managed := None;
      flags := Some [{| flag := "n"; word := "name"; desc := "Who to greet" |}];
      cooldown := Some 5000%Z; help := Some "Greets"; lang := Some "js";
      roles := Some ["r1"]; uses := Some 3%Z |}).

End CustomCommandSamples.

Module DatabaseSamples.
Import Database.

(** Cassandra never answers; the others connect at once and every
    migration succeeds. *)
Definition cassandraDown : Backends :=
  {| rethinkDb := fun _ => true;
     cassandra := fun _ => false;
     postgres := fun _ => true;
     airtable := fun _ => true;
     migrates := fun _ => true |}.

Definition fresh : Database := {| connectMethod := ClassMethod; journal := [] |}.

End DatabaseSamples.

Module ConcatBindingSamples.
Import ConcatBinding.

Definition word (s : string) : FlagResultValue := {| raw := s; value := s |}.

(** A merge that joins the arguments of the range with spaces and stops at
    the end of the list. *)
Definition joinRange (args : list FlagResultValue) (from to : Z) : FlagResultValue :=
  let part := take (Z.to_nat (to - from)) (drop (Z.to_nat from) args) in
  {| raw := String.concat " " (raw <$> part);
     value := String.concat " " (value <$> part) |}.

Definition text : ConcatBinding :=
  {| name := "text"; fallback := None; useRaw := false |}.

Definition optionalText : ConcatBinding :=
  {| name := "text"; fallback := Some "nothing"; useRaw := false |}.

End ConcatBindingSamples.

Module ManagerVocabulary.
Import CustomCommand CustomCommandSamples.

(** A name in normal form has only characters of the class, none of them
    a capital letter; such a string is left as it is. *)
Definition normal (s : string) : Prop :=
  ∀ c, In c (list_ascii_of_string s) → allowed c = true ∧ isUpper c = false.

(** The command [saveCommand] builds from a script and the command it
    replaces, if any. *)
Definition savedAs (context : Context) (n script : string)
    (current : option StoredRawGuildCommand) : StoredRawGuildCommand :=
  {| content := script;
     author := authorId context;
     authorizer := Some (authorId context);
     hidden := Some (default (startsWith "_" n) (current ≫= hidden));
     managed := None;
     flags := current ≫= flags;
     cooldown := current ≫= cooldown;
     help := current ≫= help;
     lang := current ≫= lang;
     roles := current ≫= roles;
     uses := current ≫= uses |}.

Definition written (context : Context) (n : string) (c : StoredRawGuildCommand)
    (w : World) : World :=
  {| commands := <[(guildId context, n) := RawCommand c]> (commands w);
     replies := replies w;
     storeCalls := storeCalls w ++ [SetCommand (guildId context) n (RawCommand c)] |}.

Definition greetOnly : World :=
  {| commands := {[ ("g1", "greet") := RawCommand greet.2 ]};
     replies := []; storeCalls := [] |}.

Definition imported : StoredAliasedGuildCommand :=
  {| alias_author := "u9"; alias := "poll"; alias_authorizer := Some "u1" |}.

Definition pollOnly : World :=
  {| commands := {[ ("g1", "poll") := AliasedCommand imported ]};
     replies := []; storeCalls := [] |}.

(** An entry of a flag parser: the letter c followed by three words. *)
Definition categoryFlag : list (string * option (list string)) :=
  [("c", Some ["Category"; "The"; "category"])].

End ManagerVocabulary.

Module InstallSamples.
Import CustomCommand Install.

Definition hello : ShrunkCommand :=
  {| sc_content := "Hello"; sc_cooldown := None; sc_flags := None; sc_help := None;
     sc_hidden := None; sc_lang := None; sc_managed := None; sc_roles := None;
     sc_uses := None |}.

Definition bundle : SignedShrinkwrap :=
  {| signature := None;
     payload := {| cc := [("Hi", hello)];
                   ar := [{| term := "ping"; regex := false; executes := hello |};
                          {| term := "p.ng"; regex := true; executes := hello |}];
                   are := Some hello |} |}.

(** A guild that has the commands [hi] and [_autoresponse_0]. *)
Definition busy : ShrinkwrapData :=
  {| commands := {[ "hi" := ("hi", RawCommand CustomCommandSamples.greet.2);
                    "_autoresponse_0" := ("_autoresponse_0", RawCommand CustomCommandSamples.greet.2) ]};
     autoResponses := {[ "_autoresponse_0" := [{| g_executes := "_autoresponse_0"; g_regex := false; g_term := "x" |}] ]};
     everythingAutoResponse := None |}.

(** A guild whose one command is stored under the name [Hi], and a guild
    without commands. *)
Definition mixedCase : ShrinkwrapData :=
  {| commands := {[ "Hi" := ("Hi", RawCommand CustomCommandSamples.greet.2) ]};
     autoResponses := ∅;
     everythingAutoResponse := None |}.

Definition emptyGuild : ShrinkwrapData :=
  {| commands := ∅; autoResponses := ∅; everythingAutoResponse := None |}.

(** A bundle with the command [Hi] alone, and one with a command named
    like an autoresponse. *)
Definition commandOnly : SignedShrinkwrap :=
  {| signature := None;
     payload := {| cc := [("Hi", hello)]; ar := []; are := None |} |}.

Definition clashing : SignedShrinkwrap :=
  {| signature := None;
     payload := {| cc := [("_autoresponse_0", hello)];
                   ar := [{| term := "ping"; regex := false; executes := hello |}];
                   are := None |} |}.

Definition download (url : string) : option SignedShrinkwrap :=
  if String.eqb url "https://cdn/shrinkwrap.json" then Some bundle else None.

Definition noSignature (s : Shrinkwrap) : string := "".

Definition address : string := "https://cdn/shrinkwrap.json".

(** The writes of installing [bundle] into [busy]. *)
Definition installedCalls : list Call :=
  [AddAutoresponse "g1" "ping" false "_autoresponse_1";
   SetCommand "g1" "_autoresponse_1" (authoredManaged "u1" hello);
   AddAutoresponse "g1" "p.ng" true "_autoresponse_2";
   SetCommand "g1" "_autoresponse_2" (authoredManaged "u1" hello);
   SetEverything "g1" "_autoresponse_3";
   SetCommand "g1" "_autoresponse_3" (authoredManaged "u1" hello)].

Definition installed : Outcome :=
  {| question :=
       Some (String.concat CustomCommand.nl
               (plan CustomCommand.toLowerCase noSignature busy bundle).1);
     answer := "✅ No problem, my job here is done.";
     calls := installedCalls |}.

End InstallSamples.

Module ShrinkwrapperSamples.
Import CustomCommand CustomCommandSamples Shrinkwrapper.

(** A guild with the command [greet], an alias [poll] and the command
    [_autoresponse_0] behind an autoresponse. *)
Definition guildData : GuildData :=
  {| commands :=
       {[ "greet" := ("greet", RawCommand greet.2);
          "poll" := ("poll", AliasedCommand
                      {| alias_author := "u9"; alias := "poll"; alias_authorizer := None |});
          "_autoresponse_0" := ("_autoresponse_0", RawCommand greet.2) ]};
     autoResponses :=
       {[ "_autoresponse_0" :=
            [[("executes", JString "_autoresponse_0"); ("regex", JBool false);
              ("term", JString "x")]] ]};
     everythingAutoResponse := None |}.

(** A guild with the commands [a], [b], [9] and [10]. *)
Definition numbered : GuildData :=
  {| commands :=
       {[ "a" := ("a", RawCommand greet.2); "b" := ("b", RawCommand greet.2);
          "9" := ("9", RawCommand greet.2); "10" := ("10", RawCommand greet.2) ]};
     autoResponses := ∅;
     everythingAutoResponse := None |}.

Definition objectMembers (n : string) : bool :=
  String.eqb n "constructor" || String.eqb n "__proto__".

Definition unsigned (b : Bundle) : string := "".

(** A signature that reads the names of [cc] in their order. *)
Definition namesInOrder (b : Bundle) : string := String.concat "," (keys (b_cc b)).

(** What exporting [greet] and [_autoresponse_0] from [guildData] gives. *)
Definition exported : Bundle :=
  {| b_cc := [("greet", JObject (shrinkCommand greet))];
     b_ar := [[("executes", JObject (shrinkCommand ("_autoresponse_0", greet.2)));
               ("regex", JBool false); ("term", JString "x")]];
     b_are := None |}.

End ShrinkwrapperSamples.

(* ===================================================================== *)
(** ** Properties of the [delete] subtag                                   *)
(* ===================================================================== *)
Module DeleteFacts.
Import Delete Evaluator DeleteSamples.
Local Open Scope nat_scope.

Lemma select_exact d n f :
  conditional d !! n = Some f → selectHandler d n = Some f.
Proof. unfold selectHandler. by intros ->. Qed.

Lemma select_default d n :
  conditional d !! n = None → selectHandler d n = whenNoMatch d.
Proof. unfold selectHandler. by intros ->. Qed.

Lemma delete_conditional_0 : conditional delete !! 0 = Some delete0.
Proof.
  unfold delete; simpl.
  rewrite lookup_insert_ne by lia. rewrite lookup_insert_ne by lia.
  by rewrite lookup_insert_eq.
Qed.

Lemma delete_conditional_1 : conditional delete !! 1 = Some delete1.
Proof.
  unfold delete; simpl.
  rewrite lookup_insert_ne by lia. by rewrite lookup_insert_eq.
Qed.

Lemma delete_conditional_2 : conditional delete !! 2 = Some delete2.
Proof. unfold delete; simpl. by rewrite lookup_insert_eq. Qed.

Lemma delete_conditional_more n : 3 ≤ n → conditional delete !! n = None.
Proof.
  intros Hn. unfold delete; simpl.
  rewrite !lookup_insert_ne by lia. apply lookup_empty.
Qed.

(** C1. Dispatch is by exact argument count, and the default handler runs
    when no handler is registered for the count. For [delete], which
    registers handlers for 0, 1 and 2 arguments, every call with three or
    more arguments runs the default handler, which answers with the
    too-many-arguments error and touches nothing. *)
Theorem delete_dispatch_by_arity h context args w :
  3 ≤ List.length args →
  (∀ d n f, conditional d !! n = Some f → selectHandler d n = Some f)
  ∧ (∀ d n, conditional d !! n = None → selectHandler d n = whenNoMatch d)
  ∧ selectHandler delete 0 = Some delete0
  ∧ selectHandler delete 1 = Some delete1
  ∧ selectHandler delete 2 = Some delete2
  ∧ selectHandler delete (List.length args) = Some deleteDefault
  ∧ execute delete h context args w = Some (RError "Too many arguments", w).
Proof.
  intros Hargs.
  assert (Hsel : selectHandler delete (List.length args) = Some deleteDefault).
  { rewrite select_default by (by apply delete_conditional_more). done. }
  split_and!.
  - apply select_exact.
  - apply select_default.
  - apply select_exact, delete_conditional_0.
  - apply select_exact, delete_conditional_1.
  - apply select_exact, delete_conditional_2.
  - exact Hsel.
  - unfold execute. by rewrite Hsel.
Qed.

Lemma delete_dispatch_by_arity_witness :
  execute delete workingHost staffContext ["c1"; "m2"; "extra"] quiet
  = Some (RError "Too many arguments", quiet).
Proof.
  apply (delete_dispatch_by_arity workingHost staffContext ["c1"; "m2"; "extra"] quiet).
  simpl. lia.
Defined.

Lemma execute_delete0 h context w :
  execute delete h context [] w
  = Some (deleteMessage h context (channel_id (channel context))
            (msg_id (msg context)) w).
Proof.
  unfold execute. cbn [List.length].
  by rewrite (select_exact _ _ _ delete_conditional_0).
Qed.

Lemma execute_delete1 h context messageId w :
  execute delete h context [messageId] w
  = Some (deleteMessage h context (channel_id (channel context)) messageId w).
Proof.
  unfold execute. cbn [List.length].
  by rewrite (select_exact _ _ _ delete_conditional_1).
Qed.

Lemma execute_delete2 h context channelId messageId w :
  execute delete h context [channelId; messageId] w
  = Some (deleteMessage h context channelId messageId w).
Proof.
  unfold execute. cbn [List.length].
  by rewrite (select_exact _ _ _ delete_conditional_2).
Qed.

Lemma deleteMessage_unauthorised h context channelId messageId w :
  isStaff context = false →
  ownsMessage context messageId = false →
  deleteMessage h context channelId messageId w = (RError unauthorised, w).
Proof. intros Hs Ho. unfold deleteMessage. by rewrite Hs, Ho. Qed.

(** C2. An author who is neither staff nor the owner of the target message
    gets the in-band error and nothing else happens: the world after the
    handler is the world before it (no platform call, no marker), and the
    evaluator renders the error and goes on with the sibling nodes from
    that same world. *)
Theorem delete_unauthorised_is_inband h context channelId messageId :
  isStaff context = false →
  ownsMessage context messageId = false →
  (∀ w, deleteMessage h context channelId messageId w = (RError unauthorised, w))
  ∧ (∀ rest r,
       let continue := evaluate h context rest (report "delete" unauthorised r (world r)) in
       (messageId = msg_id (msg context) →
          evaluate h context (Call delete [] :: rest) r = continue)
       ∧ evaluate h context (Call delete [messageId] :: rest) r = continue
       ∧ evaluate h context (Call delete [channelId; messageId] :: rest) r = continue).
Proof.
  intros Hs Ho. split.
  - intros w. by apply deleteMessage_unauthorised.
  - intros rest r continue. split_and!.
    + intros ->. cbn [evaluate]. rewrite execute_delete0.
      by rewrite deleteMessage_unauthorised.
    + cbn [evaluate]. rewrite execute_delete1.
      by rewrite deleteMessage_unauthorised.
    + cbn [evaluate]. rewrite execute_delete2.
      by rewrite deleteMessage_unauthorised.
Qed.

Lemma delete_unauthorised_is_inband_witness :
  deleteMessage workingHost memberContext "c1" "m2" quiet
  = (RError unauthorised, quiet).
Proof.
  apply (proj1 (delete_unauthorised_is_inband workingHost memberContext "c1" "m2"
                  eq_refl eq_refl)).
Defined.

Lemma deleteMessage_authorised h context channelId messageId w ch :
  isStaff context || ownsMessage context messageId = true →
  parseChannel h context channelId = Some ch →
  deleteMessage h context channelId messageId w
  = match fetchTarget h context ch messageId w with
    | (Rejected, w1) => (noMessageFound, w1)
    | (Resolved target, w1) =>
        (RUndefined,
         tryDelete h target
           (setMarker (guild_id (guild context)) (msg_id (msg context)) w1))
    end.
Proof. intros Hp Hc. unfold deleteMessage. by rewrite Hp, Hc. Qed.

Lemma marked_setMarker g m w : marked g m (setMarker g m w) = true.
Proof.
  unfold marked, setMarker; simpl.
  rewrite lookup_insert_eq. by rewrite lookup_insert_eq.
Qed.

Lemma marked_tryDelete h target g m w :
  marked g m (tryDelete h target w) = marked g m w.
Proof. by destruct target. Qed.

(** C3, as stated, at a concrete input: staff deletes the invoking message
    on a platform whose [deleteMessage] rejects. The call fails, and the
    handler returns nothing: no diagnostic. *)
Lemma delete_failure_goes_unreported :
  let run := deleteMessage cannotDelete staffContext "c1" "m1" quiet in
  trace run.2 = [EvSetMarker "g1" "m1"; EvDeleteMessage "c1" "m1" false]
  ∧ hostFailure (trace run.2) = true
  ∧ run.1 = RUndefined
  ∧ isDiagnostic run.1 = false
  ∧ run.1 = (deleteMessage workingHost staffContext "c1" "m1" quiet).1.
Proof. by vm_compute. Qed.

(** C3, amended. Past the permission check and with the channel resolved:
    a rejected [getMessage] for a message other than the invoking one is
    turned into the in-band no-message-found error, and nothing is marked
    or deleted; a rejected [deleteMessage] is caught and dropped, and the
    handler returns nothing, as it does whenever the lookup resolved. *)
Theorem delete_recovers_lookup_and_drops_deletion_failure
    h context channelId messageId w ch :
  isStaff context || ownsMessage context messageId = true →
  parseChannel h context channelId = Some ch →
  (msg_id (msg context) ≠ messageId →
   getMessage h (channel_id ch) messageId = Rejected →
   deleteMessage h context channelId messageId w
   = (RError "No message found",
      emit (EvGetMessage (channel_id ch) messageId false) w))
  ∧ (∀ target w1,
       fetchTarget h context ch messageId w = (Resolved (Some target), w1) →
       botDeleteMessage h (channel_id (msg_channel target)) (msg_id target) = Rejected →
       deleteMessage h context channelId messageId w
       = (RUndefined,
          emit (EvDeleteMessage (channel_id (msg_channel target)) (msg_id target) false)
            (setMarker (guild_id (guild context)) (msg_id (msg context)) w1)))
  ∧ (∀ target w1,
       fetchTarget h context ch messageId w = (Resolved target, w1) →
       (deleteMessage h context channelId messageId w).1 = RUndefined).
Proof.
  intros Hp Hc. rewrite (deleteMessage_authorised _ _ _ _ _ _ Hp Hc).
  split_and!.
  - intros Hne Hget. unfold fetchTarget.
    rewrite decide_False by done. by rewrite Hget.
  - intros target w1 Hfetch Hdel. rewrite Hfetch. simpl. by rewrite Hdel.
  - intros target w1 Hfetch. by rewrite Hfetch.
Qed.

Lemma delete_recovers_lookup_and_drops_deletion_failure_witness :
  deleteMessage cannotDelete staffContext "c1" "m2" quiet
  = (RUndefined,
     emit (EvDeleteMessage "c1" "m2" false)
       (setMarker "g1" "m1" (emit (EvGetMessage "c1" "m2" true) quiet))).
Proof.
  apply (proj1 (proj2 (delete_recovers_lookup_and_drops_deletion_failure
           cannotDelete staffContext "c1" "m2" quiet {| channel_id := "c1" |}
           eq_refl eq_refl))
          {| msg_id := "m2"; msg_channel := {| channel_id := "c1" |} |}
          (emit (EvGetMessage "c1" "m2" true) quiet)); reflexivity.
Defined.

(** C7, as stated, at a concrete input: staff deletes message [m2] from a
    command invoked by message [m1]. The message is deleted, and the marker
    that was set is the one of [m1]; [m2] carries none. *)
Lemma delete_marks_other_than_deleted :
  let run := deleteMessage workingHost staffContext "c1" "m2" quiet in
  trace run.2 = [EvGetMessage "c1" "m2" true; EvSetMarker "g1" "m1";
                 EvDeleteMessage "c1" "m2" true]
  ∧ marked "g1" "m2" run.2 = false
  ∧ marked "g1" "m1" run.2 = true.
Proof. by vm_compute. Qed.

(** C7, amended. Whenever the handler gets to the deletion (permission
    granted, channel resolved, target message found), it first sets the
    marker keyed by the guild id and the id of the invoking message, then
    calls [deleteMessage] for the target. When the target is the invoking
    message, as in a call without arguments, the marked message is the
    deleted one. *)
Theorem delete_marks_invoking_message_first
    h context channelId messageId w ch target w1 :
  isStaff context || ownsMessage context messageId = true →
  parseChannel h context channelId = Some ch →
  fetchTarget h context ch messageId w = (Resolved (Some target), w1) →
  let after := (deleteMessage h context channelId messageId w).2 in
  marked (guild_id (guild context)) (msg_id (msg context)) after = true
  ∧ trace after
    = (trace w1
       ++ [EvSetMarker (guild_id (guild context)) (msg_id (msg context));
           EvDeleteMessage (channel_id (msg_channel target)) (msg_id target)
             (is_ok (botDeleteMessage h (channel_id (msg_channel target))
                       (msg_id target)))])%list
  ∧ (messageId = msg_id (msg context) →
     target = msg context ∧ w1 = w
     ∧ marked (guild_id (guild context)) (msg_id target) after = true).
Proof.
  intros Hp Hc Hfetch after. subst after.
  rewrite (deleteMessage_authorised _ _ _ _ _ _ Hp Hc), Hfetch.
  cbn [snd]. split_and!.
  - by rewrite marked_tryDelete, marked_setMarker.
  - simpl. by rewrite <- app_assoc.
  - intros ->. unfold fetchTarget in Hfetch.
    rewrite decide_True in Hfetch by done.
    injection Hfetch as <- <-. split_and!; try done.
    by rewrite marked_tryDelete, marked_setMarker.
Qed.

Lemma delete_marks_invoking_message_first_witness :
  marked "g1" "m1" (deleteMessage workingHost staffContext "c1" "m1" quiet).2 = true.
Proof.
  apply (proj1 (delete_marks_invoking_message_first workingHost staffContext
                  "c1" "m1" quiet {| channel_id := "c1" |} invoking quiet
                  eq_refl eq_refl eq_refl)).
Defined.

End DeleteFacts.

(* ===================================================================== *)
(** ** Properties of the custom-command manager                            *)
(* ===================================================================== *)

Module CustomCommandFacts.
Import CustomCommand CustomCommandSamples.
Local Open Scope nat_scope.

Lemma untouched_refl w : untouched w w.
Proof. by split. Qed.

Lemma untouched_trans w1 w2 w3 : untouched w1 w2 → untouched w2 w3 → untouched w1 w3.
Proof. intros [? ?] [? ?]. split; congruence. Qed.

Lemma awaitQuery_untouched q w : untouched w (awaitQuery q w).2.
Proof. unfold awaitQuery. destruct (replies w); by split. Qed.

Lemma ret_untouched {A} (a : A) w : untouched w (ret a w).2.
Proof. apply untouched_refl. Qed.

Lemma bind_untouched {A B} (m : M A) (k : A → M B) w :
  untouched w (m w).2 →
  (∀ a w1, untouched w1 (k a w1).2) →
  untouched w (bind m k w).2.
Proof.
  intros Hm Hk. unfold bind. destruct (m w) as [a w1] eqn:E.
  eapply untouched_trans; [exact Hm | apply Hk].
Qed.

Lemma getCommand_untouched g n w : untouched w (getCommand g n w).2.
Proof. apply untouched_refl. Qed.

Create HintDb store.
#[local] Hint Resolve untouched_refl ret_untouched awaitQuery_untouched
  getCommand_untouched : store.

(** Walks down a chain of [bind]s and case distinctions. *)
Ltac quiet_steps :=
  repeat first
    [ apply ret_untouched
    | apply bind_untouched; [ solve [eauto with store] | intros ]
    | progress case_match ].

Lemma requestCommandName_untouched n q w :
  untouched w (requestCommandName n q w).2.
Proof. unfold requestCommandName. quiet_steps. Qed.

Lemma requestCommandContent_untouched given w :
  untouched w (requestCommandContent given w).2.
Proof. unfold requestCommandContent. quiet_steps. Qed.

#[local] Hint Resolve requestCommandName_untouched
  requestCommandContent_untouched : store.

Lemma requestCommand_untouched context n allowQuery w :
  untouched w (requestCommand context n allowQuery w).2.
Proof. unfold requestCommand. quiet_steps. Qed.

#[local] Hint Resolve requestCommand_untouched : store.

Lemma requestSettableCommand_untouched context n allowQuery w :
  untouched w (requestSettableCommand context n allowQuery w).2.
Proof. unfold requestSettableCommand. quiet_steps. Qed.

#[local] Hint Resolve requestSettableCommand_untouched : store.

Lemma requestEditableCommand_untouched context n m h q w :
  untouched w (requestEditableCommand context n m h q w).2.
Proof. unfold requestEditableCommand. quiet_steps. Qed.

Lemma requestCreatableCommand_untouched context n q w :
  untouched w (requestCreatableCommand context n q w).2.
Proof. unfold requestCreatableCommand. quiet_steps. Qed.

#[local] Hint Resolve requestEditableCommand_untouched
  requestCreatableCommand_untouched : store.

Section ManagerFacts.

Variable check : string → Analysis.
Variable stringifyAnalysis : Analysis → string.

Local Abbreviation savedClean := (savedClean check).
Local Abbreviation outcome := (outcome check).

Lemma outcome_after context w w1 w2 :
  untouched w w1 → outcome context w1 w2 → outcome context w w2.
Proof.
  intros [Hc Hs] [Hu | (n & c & He & Hc' & Hs')].
  - left. eapply untouched_trans; [by split | exact Hu].
  - right. exists n, c. rewrite <- Hc, <- Hs. by split_and!.
Qed.

Lemma bind_outcome {A B} context (m : M A) (k : A → M B) w :
  untouched w (m w).2 →
  (∀ a w1, outcome context w1 (k a w1).2) →
  outcome context w (bind m k w).2.
Proof.
  intros Hm Hk. unfold bind. destruct (m w) as [a w1] eqn:E.
  eapply outcome_after; [exact Hm | apply Hk].
Qed.

Lemma errors_test (a : Analysis) :
  (0 <? List.length (errors a)) = false ↔ errors a = [].
Proof.
  destruct (errors a); simpl; split; intros; try done.
Qed.

Lemma saveCommand_outcome context operation n given current w :
  outcome context w (saveCommand check stringifyAnalysis context operation n given current w).2.
Proof.
  unfold saveCommand. apply bind_outcome; [eauto with store |].
  intros [script|] w1; [| left; apply untouched_refl].
  destruct (0 <? List.length (errors (check script))) eqn:E.
  - left. apply untouched_refl.
  - right. apply errors_test in E. unfold bind, ret, dbSetCommand; simpl.
    eexists n, _. split_and!; [| reflexivity | reflexivity]. exact E.
Qed.

Lemma submit_outcome op context n given w :
  outcome context w (submit check stringifyAnalysis op context n given w).2.
Proof.
  destruct op; simpl.
  - unfold createCommand. case_match; [left; apply untouched_refl |].
    apply bind_outcome; [eauto with store |].
    intros [name | a] w1; [apply saveCommand_outcome | left; apply untouched_refl].
  - unfold editCommand. case_match; [left; apply untouched_refl |].
    apply bind_outcome; [eauto with store |].
    intros [[name [r | a]] | a] w1;
      [apply saveCommand_outcome | left; apply untouched_refl ..].
  - unfold setCommand. case_match; [left; apply untouched_refl |].
    apply bind_outcome; [eauto with store |].
    intros [[name [[r | a] |]] | a] w1;
      first [apply saveCommand_outcome | left; apply untouched_refl].
Qed.

(** C4. A script whose analysis reports an error is not saved.
    [saveCommand] answers with the header and the printed analysis and
    leaves the store as it was: the table is unchanged and no write is
    issued. For the three operations that submit a script, whatever
    the arguments and the answers of the user: either the store is left
    as it was, or exactly one command was written and the analysis of its
    script had no error. *)
Theorem erroneous_script_is_not_saved :
  (∀ context operation n given current w script w1,
     requestCommandContent given w = (Some script, w1) →
     errors (check script) ≠ [] →
     saveCommand check stringifyAnalysis context operation n given current w
     = (Some (errorsHeader ++ nl ++ stringifyAnalysis (check script)), w1)
     ∧ commands w1 = commands w
     ∧ storeCalls w1 = storeCalls w)
  ∧ (∀ op context n given w,
       outcome context w (submit check stringifyAnalysis op context n given w).2).
Proof.
  split; [| apply submit_outcome].
  intros context operation n given current w script w1 Hreq Herr.
  pose proof (requestCommandContent_untouched given w) as Hu.
  rewrite Hreq in Hu. destruct Hu as [Hc Hs]. split_and!; try done.
  unfold saveCommand, bind. rewrite Hreq.
  destruct (0 <? List.length (errors (check script))) eqn:E; [done |].
  by apply errors_test in E.
Qed.

End ManagerFacts.

Lemma erroneous_script_is_not_saved_witness :
  saveCommand sampleCheck sampleStringify moderator "created" "broken" (Some "{") None emptyStore
  = (Some (errorsHeader ++ nl ++ "Unmatched '{'"), emptyStore)
  ∧ commands emptyStore = commands emptyStore
  ∧ storeCalls emptyStore = storeCalls emptyStore.
Proof.
  apply (proj1 (erroneous_script_is_not_saved sampleCheck sampleStringify)
           moderator "created" "broken" (Some "{") None emptyStore "{" emptyStore).
  - reflexivity.
  - vm_compute. discriminate.
Defined.

(** *** What the manager does on small inputs *)

Example normalizeName_sample : normalizeName "My Cmd\|é" = "my cmd".
Proof. reflexivity. Qed.

Example create_clean_script :
  let run := createCommand sampleCheck sampleStringify moderator (Some "Hi") (Some "Hello") emptyStore in
  run.1 = Some ("✅ Custom command `hi` created." ++ nl)
  ∧ ((fun c => match c with RawCommand r => content r | _ => "" end)
       <$> (commands run.2 !! ("g1", "hi"))) = Some "Hello".
Proof. by vm_compute. Qed.

Example create_asks_for_the_script :
  let asked := {| commands := ∅; replies := [Some "{"]; storeCalls := [] |} in
  let run := createCommand sampleCheck sampleStringify moderator (Some "hi") None asked in
  run.1 = Some (errorsHeader ++ nl ++ "Unmatched '{'")
  ∧ commands run.2 = ∅ ∧ storeCalls run.2 = [].
Proof. by vm_compute. Qed.

(** *** The exported command *)

(** A literal string is none of the literal strings of a list. *)
Ltac not_member :=
  let H := fresh in
  intros H;
  repeat (apply elem_of_cons in H as [H | H]; [discriminate H |]);
  by apply elem_of_nil in H.

(** C6, as stated, at a concrete input: the export of a command that has a
    language and a use count carries both, and neither is among the listed
    members. *)
Lemma shrunk_command_carries_lang_and_uses :
  let shrunk := shrinkCommand greet in
  definedKeys shrunk
  = ["content"; "cooldown"; "flags"; "help"; "hidden"; "lang"; "roles"; "uses"]
  ∧ property "lang" shrunk = JString "js"
  ∧ property "uses" shrunk = JNumber 3
  ∧ ("lang" ∉ listedMembers)
  ∧ ("uses" ∉ listedMembers).
Proof.
  split_and!; try reflexivity; unfold listedMembers; not_member.
Qed.

(** C6, amended. The exported command has exactly the members content,
    cooldown, flags, help, hidden, lang, managed, roles and uses, each
    copied from the stored command; it has no member author, authorizer or
    name, and nothing in it depends on the name, the author or the
    authorizer of the stored command. *)
Theorem shrunk_command_shape (command : NamedStoredRawGuildCommand) :
  let c := command.2 in
  let shrunk := shrinkCommand command in
  keys shrunk = exportedMembers
  ∧ property "content" shrunk = JString (content c)
  ∧ property "cooldown" shrunk = optional JNumber (cooldown c)
  ∧ property "flags" shrunk = optional (fun fs => JArray (flagObject <$> fs)) (flags c)
  ∧ property "help" shrunk = optional JString (help c)
  ∧ property "hidden" shrunk = optional JBool (hidden c)
  ∧ property "lang" shrunk = optional JString (lang c)
  ∧ property "managed" shrunk = optional JBool (managed c)
  ∧ property "roles" shrunk = optional (fun rs => JArray (JString <$> rs)) (roles c)
  ∧ property "uses" shrunk = optional JNumber (uses c)
  ∧ ("author" ∉ keys shrunk)
  ∧ ("authorizer" ∉ keys shrunk)
  ∧ ("name" ∉ keys shrunk)
  ∧ (∀ n a az,
       shrinkCommand
         (n, {| content := content c; author := a; authorizer := az;
                hidden := hidden c; managed := managed c; flags := flags c;
                cooldown := cooldown c; help := help c; lang := lang c;
                roles := roles c; uses := uses c |})
       = shrunk).
Proof.
  destruct command as [n c]. simpl.
  split_and!; try reflexivity; unfold keys; simpl; not_member.
Qed.

End CustomCommandFacts.

(* ===================================================================== *)
(** ** Properties of the database connector                                *)
(* ===================================================================== *)

Module DatabaseFacts.
Import Database DatabaseSamples.
Local Open Scope nat_scope.
Local Open Scope list_scope.

Example retry_third_time_lucky :
  retryConnect 11 "rethinkDb" (fun k => 3 <=? k) 5000 (Finite 10)
  = Some (Resolved tt,
          [Connect "rethinkDb" 1 false; LogError "rethinkDb" 1 5000; Sleep 5000;
           Connect "rethinkDb" 2 false; LogError "rethinkDb" 2 5000; Sleep 5000;
           Connect "rethinkDb" 3 true; LogInit "rethinkDb" 3]).
Proof. reflexivity. Qed.

Example retry_runs_out_of_fuel :
  retryConnect 50 "rethinkDb" (fun _ => false) 5000 Infinity = None.
Proof. reflexivity. Qed.

(** The loop with a finite bound [n], entered at [attempt ≤ n] with more
    fuel than attempts left: it ends, makes at most [n - attempt] attempts,
    pauses after every failure, and makes all of them when none succeeds. *)
Lemma retryLoop_finite dbName connect intervalMs n :
  ∀ fuel attempt,
    attempt ≤ n → n - attempt < fuel →
    ∃ log,
      retryLoop fuel dbName connect intervalMs (Finite n) attempt = Some log
      ∧ attempts log ≤ n - attempt
      ∧ pausesAfterFailures intervalMs log = true
      ∧ ((∀ k, connect k = false) →
         attempts log = n - attempt ∧ failures log = n - attempt).
Proof.
  induction fuel as [| fuel IH]; intros attempt Hle Hfuel; [lia |].
  cbn [retryLoop below].
  destruct (attempt <? n) eqn:Hlt.
  - apply Nat.ltb_lt in Hlt.
    destruct (connect (S attempt)) eqn:Hc.
    + eexists. split_and!; [reflexivity | unfold attempts; simpl; lia | reflexivity |].
      intros Hall. by rewrite Hall in Hc.
    + destruct (IH (S attempt)) as (rest & Hrest & Hatt & Hpause & Hall); [lia .. |].
      rewrite Hrest. eexists. split_and!; [reflexivity | | |].
      * unfold attempts in *. simpl. lia.
      * simpl. rewrite !Nat.eqb_refl. exact Hpause.
      * intros Hf. destruct (Hall Hf) as [Ha Hb].
        unfold attempts, failures in *. simpl. lia.
  - apply Nat.ltb_ge in Hlt.
    eexists. split_and!; [reflexivity | unfold attempts; simpl; lia | reflexivity |].
    intros _. unfold attempts, failures. simpl. lia.
Qed.

Lemma retryConnect_finite dbName connect intervalMs n fuel :
  n < fuel →
  ∃ log,
    retryConnect fuel dbName connect intervalMs (Finite n) = Some (Resolved tt, log)
    ∧ attempts log ≤ n
    ∧ pausesAfterFailures intervalMs log = true
    ∧ ((∀ k, connect k = false) → attempts log = n ∧ failures log = n).
Proof.
  intros Hfuel.
  destruct (retryLoop_finite dbName connect intervalMs n fuel 0)
    as (log & Hlog & Hatt & Hpause & Hall); [lia .. |].
  exists log. unfold retryConnect. rewrite Hlog. simpl.
  rewrite Nat.sub_0_r in *. by split_and!.
Qed.

Lemma connectBody_resolves fuel b db :
  10 < fuel →
  ∃ c1 c2 c3 c4,
    retryConnect fuel "rethinkDb" (rethinkDb b) 5000 (Finite 10) = Some (Resolved tt, c1)
    ∧ retryConnect fuel "cassandra" (cassandra b) 5000 (Finite 10) = Some (Resolved tt, c2)
    ∧ retryConnect fuel "postgresdb" (postgres b) 5000 (Finite 10) = Some (Resolved tt, c3)
    ∧ retryConnect fuel "airtable" (airtable b) 5000 (Finite 10) = Some (Resolved tt, c4)
    ∧ connectBody fuel b db
      = Some (if forallb (migrates b) tables then Resolved tt else Rejected,
              {| connectMethod := ResolveAtOnce;
                 journal := journal db ++ [All [c1; c2; c3; c4]; migrations b]
                            ++ (if forallb (migrates b) tables then watchers else []) |}).
Proof.
  intros Hfuel.
  destruct (retryConnect_finite "rethinkDb" (rethinkDb b) 5000 10 fuel Hfuel) as (c1 & H1 & _).
  destruct (retryConnect_finite "cassandra" (cassandra b) 5000 10 fuel Hfuel) as (c2 & H2 & _).
  destruct (retryConnect_finite "postgresdb" (postgres b) 5000 10 fuel Hfuel) as (c3 & H3 & _).
  destruct (retryConnect_finite "airtable" (airtable b) 5000 10 fuel Hfuel) as (c4 & H4 & _).
  exists c1, c2, c3, c4. split_and!; try done.
  unfold connectBody. rewrite H1, H2, H3, H4.
  set (ok := forallb (migrates b) tables). simpl.
  destruct ok; by rewrite ?app_nil_r.
Qed.

Lemma connectAgain_replaced n fuel b db :
  connectMethod db = ResolveAtOnce →
  connectAgain n fuel b db = Some (replicate n (Resolved tt), db).
Proof.
  intros Hm. induction n as [| n IH]; [done |].
  cbn [connectAgain]. unfold connect at 1. rewrite Hm. simpl.
  by rewrite IH.
Qed.

(** A connection loop that may run at all starts with attempt 1. *)
Lemma retryConnect_first_attempt fuel dbName attemptOk intervalMs n log :
  0 < n →
  retryConnect fuel dbName attemptOk intervalMs (Finite n) = Some (Resolved tt, log) →
  head log = Some (Connect dbName 1 (attemptOk 1)).
Proof.
  intros Hn. unfold retryConnect. destruct fuel as [| fuel]; [done |].
  cbn [retryLoop below]. rewrite (proj2 (Nat.ltb_lt 0 n) Hn).
  destruct (attemptOk 1); [intros; by simplify_eq/= |].
  destruct (retryLoop fuel dbName attemptOk intervalMs (Finite n) 1); simpl; [| done].
  intros; by simplify_eq.
Qed.

(** C8. The first call of [connect] on a database replaces the method and
    journals, in this order: the four retrying connections (rethinkDb,
    cassandra, postgresdb, airtable, each starting with its attempt 1),
    the seven migrations (guilds, users, vars, events, tags, chatlogs,
    dumps) and, when all seven succeed, the two change watchers (guilds,
    users). Every later call on that database resolves at once and leaves
    the database, journal included, as it is: no connection, migration or
    watcher runs again. *)
Theorem connect_is_idempotent fuel b db :
  10 < fuel →
  connectMethod db = ClassMethod →
  let migrated :=
    forallb (migrates b)
      ["guilds"; "users"; "vars"; "events"; "tags"; "chatlogs"; "dumps"] in
  ∃ c1 c2 c3 c4 db1,
    retryConnect fuel "rethinkDb" (rethinkDb b) 5000 (Finite 10) = Some (Resolved tt, c1)
    ∧ retryConnect fuel "cassandra" (cassandra b) 5000 (Finite 10) = Some (Resolved tt, c2)
    ∧ retryConnect fuel "postgresdb" (postgres b) 5000 (Finite 10) = Some (Resolved tt, c3)
    ∧ retryConnect fuel "airtable" (airtable b) 5000 (Finite 10) = Some (Resolved tt, c4)
    ∧ head c1 = Some (Connect "rethinkDb" 1 (rethinkDb b 1))
    ∧ head c2 = Some (Connect "cassandra" 1 (cassandra b 1))
    ∧ head c3 = Some (Connect "postgresdb" 1 (postgres b 1))
    ∧ head c4 = Some (Connect "airtable" 1 (airtable b 1))
    ∧ connect fuel b db = Some (if migrated then Resolved tt else Rejected, db1)
    ∧ connectMethod db1 = ResolveAtOnce
    ∧ journal db1
      = journal db
        ++ [All [c1; c2; c3; c4];
            All [[Migrate "guilds" (migrates b "guilds")];
                 [Migrate "users" (migrates b "users")];
                 [Migrate "vars" (migrates b "vars")];
                 [Migrate "events" (migrates b "events")];
                 [Migrate "tags" (migrates b "tags")];
                 [Migrate "chatlogs" (migrates b "chatlogs")];
                 [Migrate "dumps" (migrates b "dumps")]]]
        ++ (if migrated then [WatchChanges "guilds"; WatchChanges "users"] else [])
    ∧ (∀ fuel', connect fuel' b db1 = Some (Resolved tt, db1))
    ∧ (∀ n fuel', connectAgain n fuel' b db1 = Some (replicate n (Resolved tt), db1)).
Proof.
  intros Hfuel Hm migrated.
  destruct (connectBody_resolves fuel b db Hfuel) as (c1 & c2 & c3 & c4 & H1 & H2 & H3 & H4 & Hb).
  eexists c1, c2, c3, c4, _. split_and!; try done.
  - apply (retryConnect_first_attempt fuel _ _ 5000 10 _); [lia | exact H1].
  - apply (retryConnect_first_attempt fuel _ _ 5000 10 _); [lia | exact H2].
  - apply (retryConnect_first_attempt fuel _ _ 5000 10 _); [lia | exact H3].
  - apply (retryConnect_first_attempt fuel _ _ 5000 10 _); [lia | exact H4].
  - unfold connect. rewrite Hm. exact Hb.
  - reflexivity.
  - reflexivity.
  - intros fuel'. reflexivity.
  - intros n fuel'. by apply connectAgain_replaced.
Qed.

Lemma connect_is_idempotent_witness :
  let migrated :=
    forallb (migrates cassandraDown)
      ["guilds"; "users"; "vars"; "events"; "tags"; "chatlogs"; "dumps"] in
  ∃ c1 c2 c3 c4 db1,
    retryConnect 11 "rethinkDb" (rethinkDb cassandraDown) 5000 (Finite 10) = Some (Resolved tt, c1)
    ∧ retryConnect 11 "cassandra" (cassandra cassandraDown) 5000 (Finite 10) = Some (Resolved tt, c2)
    ∧ retryConnect 11 "postgresdb" (postgres cassandraDown) 5000 (Finite 10) = Some (Resolved tt, c3)
    ∧ retryConnect 11 "airtable" (airtable cassandraDown) 5000 (Finite 10) = Some (Resolved tt, c4)
    ∧ head c1 = Some (Connect "rethinkDb" 1 (rethinkDb cassandraDown 1))
    ∧ head c2 = Some (Connect "cassandra" 1 (cassandra cassandraDown 1))
    ∧ head c3 = Some (Connect "postgresdb" 1 (postgres cassandraDown 1))
    ∧ head c4 = Some (Connect "airtable" 1 (airtable cassandraDown 1))
    ∧ connect 11 cassandraDown fresh
      = Some (if migrated then Resolved tt else Rejected, db1)
    ∧ connectMethod db1 = ResolveAtOnce
    ∧ journal db1
      = journal fresh
        ++ [All [c1; c2; c3; c4];
            All [[Migrate "guilds" (migrates cassandraDown "guilds")];
                 [Migrate "users" (migrates cassandraDown "users")];
                 [Migrate "vars" (migrates cassandraDown "vars")];
                 [Migrate "events" (migrates cassandraDown "events")];
                 [Migrate "tags" (migrates cassandraDown "tags")];
                 [Migrate "chatlogs" (migrates cassandraDown "chatlogs")];
                 [Migrate "dumps" (migrates cassandraDown "dumps")]]]
        ++ (if migrated then [WatchChanges "guilds"; WatchChanges "users"] else [])
    ∧ (∀ fuel', connect fuel' cassandraDown db1 = Some (Resolved tt, db1))
    ∧ (∀ n fuel', connectAgain n fuel' cassandraDown db1 = Some (replicate n (Resolved tt), db1)).
Proof.
  apply (connect_is_idempotent 11 cassandraDown fresh); [lia | reflexivity].
Defined.

(** C9. [retryConnect], called as [connect] calls it (5000 ms, at most 10
    attempts), always resolves: it makes at most 10 attempts, pauses
    5000 ms after every failed one, and when all 10 fail it still resolves.
    Hence [connect] resolves whenever the migrations succeed, whatever the
    four backing databases answer. *)
Theorem retryConnect_never_rejects dbName attemptOk fuel :
  10 < fuel →
  (∃ log,
     retryConnect fuel dbName attemptOk 5000 (Finite 10) = Some (Resolved tt, log)
     ∧ attempts log ≤ 10
     ∧ pausesAfterFailures 5000 log = true
     ∧ ((∀ k, attemptOk k = false) → attempts log = 10 ∧ failures log = 10))
  ∧ (∀ b db,
       connectMethod db = ClassMethod →
       forallb (migrates b) tables = true →
       ∃ db1, connect fuel b db = Some (Resolved tt, db1)).
Proof.
  intros Hfuel. split.
  - by apply retryConnect_finite.
  - intros b db Hm Hmig.
    destruct (connectBody_resolves fuel b db Hfuel) as (c1 & c2 & c3 & c4 & _ & _ & _ & _ & Hb).
    rewrite Hmig in Hb. eexists. unfold connect. rewrite Hm. exact Hb.
Qed.

Lemma retryConnect_never_rejects_witness :
  ∃ db1, connect 11 cassandraDown fresh = Some (Resolved tt, db1).
Proof.
  apply (proj2 (retryConnect_never_rejects "cassandra" (cassandra cassandraDown) 11
                  ltac:(lia)) cassandraDown fresh); reflexivity.
Defined.

Example cassandra_never_connected :
  ∃ log,
    retryConnect 11 "cassandra" (cassandra cassandraDown) 5000 (Finite 10)
    = Some (Resolved tt, log)
    ∧ attempts log = 10 ∧ failures log = 10.
Proof. eexists. split_and!; reflexivity. Qed.

End DatabaseFacts.

(* ===================================================================== *)
(** ** Properties of the concat binding                                    *)
(* ===================================================================== *)

Module ConcatBindingFacts.
Import ConcatBinding ConcatBindingSamples.
Local Open Scope Z_scope.

Section BinderFacts.

Context {ParseResult BindingResult : Type}.
Variable merge : list FlagResultValue → Z → Z → FlagResultValue.
Variable getBindingResult : CommandBinderState → Z → ParseResult → BindingResult.
Variable bindingError : CommandBinderState → string → BindingResult.
Variable parse : string → CommandBinderState → ParseResult.

Local Abbreviation binder := (binder merge getBindingResult bindingError parse).
Local Abbreviation candidate := (candidate merge getBindingResult parse).

(** No argument left: the parsed fallback, or the error. *)
Lemma binder_no_argument_left this state :
  remaining state = 0 →
  binder this state
  = match fallback this with
    | Some f => [getBindingResult state 0 (parse f state)]
    | None => [bindingError state (notEnough this)]
    end.
Proof.
  unfold remaining, binder. intros Hr.
  by rewrite (proj2 (Nat.eqb_eq _ _)) by lia.
Qed.

(** [n ≥ 1] arguments left: the loop yields for [i = 0, ..., n], which
    are [n + 1] results, and the result for [i] merges the range from
    [argIndex] to [argIndex + i + 1]. *)
Lemma binder_arguments_left this state :
  1 ≤ remaining state →
  binder this state = candidate this state <$> seqZ 0 (remaining state + 1)
  ∧ Z.of_nat (List.length (binder this state)) = remaining state + 1.
Proof.
  unfold remaining. intros Hr. unfold ConcatBinding.binder.
  rewrite (proj2 (Nat.eqb_neq _ _)) by lia.
  split; [done |]. rewrite length_fmap, length_seqZ. unfold remaining. lia.
Qed.

(** C10 on a single remaining argument. The claim asks for exactly one
    candidate, the parse of that argument. The generator yields two: the
    loop runs for [i = 0] and [i = 1], and the second asks [merge] for
    the range from 0 to 2 of a list of length one. *)
Theorem binder_single_argument_yields_two this a :
  let state := {| positional := [a]; argIndex := 0 |} in
  let pick (v : FlagResultValue) := if useRaw this then raw v else value v in
  remaining state = 1
  ∧ binder this state
    = [ getBindingResult state 0 (parse (pick (merge [a] 0 1)) state);
        getBindingResult state 1 (parse (pick (merge [a] 0 2)) state) ]
  ∧ List.length (binder this state) = 2%nat.
Proof. by split_and!. Qed.

End BinderFacts.

Example concat_two_words :
  binder joinRange (fun _ i p => (i, p)) (fun _ e => (-1, e)) (fun s _ => s) text
    {| positional := [word "a"; word "b"]; argIndex := 0 |}
  = [(0, "a"); (1, "a b"); (2, "a b")].
Proof. reflexivity. Qed.

Example concat_fallback :
  binder joinRange (fun _ i p => (i, p)) (fun _ e => (-1, e)) (fun s _ => s) optionalText
    {| positional := [word "a"]; argIndex := 1 |}
  = [(0, "nothing")].
Proof. reflexivity. Qed.

End ConcatBindingFacts.

(* ===================================================================== *)
(** ** More on the custom-command manager: names, questions, operations    *)
(* ===================================================================== *)
Module ManagerMore.
Import CustomCommand CustomCommandSamples CustomCommandFacts ManagerVocabulary.
Local Open Scope nat_scope.

(** *** Names *)

Lemma lower_allowed c : allowed c = true → allowed (lower c) = true.
Proof. destruct c as [[] [] [] [] [] [] [] []]; vm_compute; congruence. Qed.

Lemma lower_not_upper c : isUpper (lower c) = false.
Proof. by destruct c as [[] [] [] [] [] [] [] []]. Qed.

Lemma lower_lower c : lower (lower c) = lower c.
Proof. by destruct c as [[] [] [] [] [] [] [] []]. Qed.

Lemma toLowerCase_twice s : toLowerCase (toLowerCase s) = toLowerCase s.
Proof. induction s as [| c s IH]; simpl; [done |]. by rewrite lower_lower, IH. Qed.

Lemma keep_lowered s :
  keep allowed (toLowerCase (keep allowed s)) = toLowerCase (keep allowed s).
Proof.
  induction s as [| c s IH]; simpl; [done |].
  destruct (allowed c) eqn:E; simpl; [| done].
  by rewrite (lower_allowed _ E), IH.
Qed.

Lemma normal_fixed s : normal s → normalizeName s = s.
Proof.
  unfold normal, normalizeName.
  induction s as [| c s IH]; simpl; [done |]. intros Hall.
  destruct (Hall c (or_introl eq_refl)) as [-> Hup]. simpl.
  rewrite IH by (intros c' Hin; apply Hall; by right).
  unfold lower. by rewrite Hup.
Qed.

Lemma normalizeName_normal title : normal (normalizeName title).
Proof.
  unfold normal, normalizeName.
  induction title as [| c s IH]; simpl; [done |].
  destruct (allowed c) eqn:E; simpl; [| done].
  intros c' [<- | Hin]; [| by apply IH].
  split; [by apply lower_allowed | apply lower_not_upper].
Qed.

Lemma normalizeName_stable title :
  normalizeName (normalizeName title) = normalizeName title.
Proof. apply normal_fixed, normalizeName_normal. Qed.

(** X1. Normalising a name twice is normalising it once, and the names
    that normalisation leaves as they are are exactly the strings made of
    characters of the class without capital letters: a stored name is
    found again under itself. *)
Theorem normalizeName_idempotent title :
  normalizeName (normalizeName title) = normalizeName title
  ∧ (normalizeName title = title ↔ normal title).
Proof.
  split; [unfold normalizeName; by rewrite keep_lowered, toLowerCase_twice |]. split.
  - intros <-. apply normalizeName_normal.
  - apply normal_fixed.
Qed.

(** X2. A normalised name is no longer than the title, and each of its
    characters belongs to the class of [normalizeName] and is no capital
    letter. *)
Theorem normalizeName_characters title :
  String.length (normalizeName title) ≤ String.length title
  ∧ ∀ c, In c (list_ascii_of_string (normalizeName title)) →
         allowed c = true ∧ isUpper c = false.
Proof.
  unfold normalizeName. split.
  - induction title as [| c s IH]; simpl; [done |].
    destruct (allowed c); simpl; lia.
  - induction title as [| c s IH]; simpl; [done |].
    destruct (allowed c) eqn:E; simpl; [| done].
    intros c' [<- | Hin]; [| by apply IH].
    split; [by apply lower_allowed | apply lower_not_upper].
Qed.

Lemma normalizeName_characters_witness :
  String.length (normalizeName "Hi!") ≤ String.length "Hi!"
  ∧ ∀ c, In c (list_ascii_of_string (normalizeName "Hi!")) →
         allowed c = true ∧ isUpper c = false.
Proof. exact (normalizeName_characters "Hi!"). Defined.

(** *** Questions *)

Lemma nonEmpty_true s : nonEmpty s = true ↔ s ≠ "".
Proof. destruct s; simpl; split; intros; try done. Qed.

(** Breaks a run of the state monad into its steps. *)
Ltac run_steps :=
  unfold bind, ret, awaitQuery, getCommand in *;
  repeat (case_match; simplify_eq/=).

(** X3. When [requestCommandName] yields a name, the name is not empty and
    is its own normal form. The user is asked at most once, and never when
    the query text is empty; the store is not touched. *)
Theorem requestCommandName_yields_usable_name given query w r w' :
  requestCommandName given query w = (r, w') →
  (∀ n, r = Some n → n ≠ "" ∧ normalizeName n = n)
  ∧ (query = "" → w' = w)
  ∧ (replies w' = replies w ∨ ∃ a, replies w = a :: replies w')
  ∧ untouched w w'.
Proof.
  intros Hrun.
  pose proof (requestCommandName_untouched given query w) as Hu.
  rewrite Hrun in Hu. split_and!; [| | | exact Hu].
  - intros n ->. unfold requestCommandName in Hrun. run_steps;
      split; try (by apply nonEmpty_true); apply normalizeName_stable.
  - intros ->. unfold requestCommandName in Hrun. by run_steps.
  - unfold requestCommandName in Hrun. run_steps; eauto.
Qed.

Lemma requestCommandName_yields_usable_name_witness :
  (∀ n, Some "my cmd" = Some n → n ≠ "" ∧ normalizeName n = n)
  ∧ ("" = "" → emptyStore = emptyStore)
  ∧ (replies emptyStore = replies emptyStore
     ∨ ∃ a, replies emptyStore = a :: replies emptyStore)
  ∧ untouched emptyStore emptyStore.
Proof.
  apply (requestCommandName_yields_usable_name (Some "My Cmd") "" emptyStore).
  reflexivity.
Defined.

(** X4. When [requestCommandContent] yields a script, the script is not
    empty. A non-empty script that was given is handed back as it is,
    without a question; otherwise the user is asked once, and the answer
    [c] or an empty answer yields nothing. *)
Theorem requestCommandContent_yields_script given w r w' :
  requestCommandContent given w = (r, w') →
  (∀ s, r = Some s → s ≠ "")
  ∧ (∀ s, given = Some s → s ≠ "" → r = Some s ∧ w' = w)
  ∧ (∀ a rest, (given = None ∨ given = Some "") → replies w = a :: rest →
       replies w' = rest
       ∧ r = match a with
             | Some s => if String.eqb s "c" then None
                         else if nonEmpty s then Some s else None
             | None => None
             end)
  ∧ untouched w w'.
Proof.
  intros Hrun.
  pose proof (requestCommandContent_untouched given w) as Hu.
  rewrite Hrun in Hu. split_and!; [| | | exact Hu].
  - intros s ->. unfold requestCommandContent in Hrun.
    run_steps; by apply nonEmpty_true.
  - intros s -> Hs. apply nonEmpty_true in Hs.
    unfold requestCommandContent in Hrun. rewrite Hs in Hrun.
    unfold ret in Hrun. by simplify_eq/=.
  - intros a rest Hgiven Hreplies. unfold requestCommandContent in Hrun.
    destruct Hgiven as [-> | ->]; simpl in Hrun;
      unfold bind, ret, awaitQuery in Hrun; rewrite Hreplies in Hrun;
      repeat (case_match; simplify_eq/=); done.
Qed.

Lemma requestCommandContent_yields_script_witness :
  (∀ s, Some "Hello" = Some s → s ≠ "")
  ∧ (∀ s, Some "Hello" = Some s → s ≠ "" → Some "Hello" = Some s ∧ emptyStore = emptyStore)
  ∧ (∀ a rest, (Some "Hello" = None ∨ Some "Hello" = Some "") →
       replies emptyStore = a :: rest →
       replies emptyStore = rest
       ∧ Some "Hello" = match a with
             | Some s => if String.eqb s "c" then None
                         else if nonEmpty s then Some s else None
             | None => None
             end)
  ∧ untouched emptyStore emptyStore.
Proof.
  apply (requestCommandContent_yields_script (Some "Hello") emptyStore).
  reflexivity.
Defined.

(** *** Operations *)

Lemma requestCommand_found context given allowQuery w n oc w1 :
  requestCommand context given allowQuery w = (Found (n, oc), w1) →
  commands w1 !! (guildId context, n) = oc ∧ untouched w w1.
Proof.
  intros Hrun.
  pose proof (requestCommand_untouched context given allowQuery w) as Hu.
  rewrite Hrun in Hu. split; [| exact Hu].
  unfold requestCommand, bind, ret, getCommand in Hrun.
  destruct (requestCommandName given _ w) as [[name |] w0]; [| done].
  destruct (commands w0 !! (guildId context, name)) as [c |] eqn:E;
    simpl in Hrun; by simplify_eq.
Qed.

Lemma requestSettableCommand_found context given allowQuery w n oc w1 :
  requestSettableCommand context given allowQuery w = (Found (n, oc), w1) →
  commands w1 !! (guildId context, n) = oc ∧ untouched w w1.
Proof.
  unfold requestSettableCommand, bind, ret. intros Hrun.
  destruct (requestCommand context given allowQuery w) as [[[n' oc'] | a] w0] eqn:E;
    simplify_eq. by apply requestCommand_found in E.
Qed.

Lemma requestEditableCommand_found context given w n c w1 :
  requestEditableCommand context given false true true w = (Found (n, c), w1) →
  commands w1 !! (guildId context, n) = Some c
  ∧ isManaged c = false
  ∧ untouched w w1.
Proof.
  unfold requestEditableCommand, bind, ret. intros Hrun.
  destruct (requestSettableCommand context given true w) as [[[n' [c' |]] | a] w0] eqn:E;
    simplify_eq/=.
  apply requestSettableCommand_found in E as [Hc Hu].
  destruct (isManaged c') eqn:Hm; simplify_eq/=. done.
Qed.

Lemma requestCreatableCommand_found context given w n w1 :
  requestCreatableCommand context given true w = (Found n, w1) →
  commands w1 !! (guildId context, n) = None ∧ untouched w w1.
Proof.
  unfold requestCreatableCommand, bind, ret. intros Hrun.
  destruct (requestCommand context given true w) as [[[n' [c' |]] | a] w0] eqn:E;
    simplify_eq/=.
  by apply requestCommand_found in E.
Qed.

Section Operations.

Variable check : string → Analysis.
Variable stringifyAnalysis : Analysis → string.

Local Abbreviation saveCommand := (saveCommand check stringifyAnalysis).
Local Abbreviation createCommand := (createCommand check stringifyAnalysis).
Local Abbreviation editCommand := (editCommand check stringifyAnalysis).
Local Abbreviation setCommand := (setCommand check stringifyAnalysis).

(** [saveCommand] writes under the name it is given, a command with a
    body of its own, or it does not write. *)
Lemma saveCommand_table context operation n given current w :
  let w' := (saveCommand context operation n given current w).2 in
  commands w' = commands w
  ∨ ∃ c, commands w' = <[(guildId context, n) := RawCommand c]> (commands w).
Proof.
  unfold CustomCommand.saveCommand, bind.
  pose proof (requestCommandContent_untouched given w) as [Hc _].
  destruct (requestCommandContent given w) as [[script |] w1]; simpl in *;
    [| by left].
  destruct (0 <? List.length (errors (check script))); simpl; [by left |].
  right. rewrite Hc. by eexists.
Qed.

(** X5. [createCommand] never overwrites: whatever the arguments and the
    answers of the user, every command of the table is still there,
    unchanged, afterwards. *)
Theorem createCommand_keeps_every_command context commandName given w k c :
  commands w !! k = Some c →
  commands (createCommand context commandName given w).2 !! k = Some c.
Proof.
  intros Hk. unfold CustomCommand.createCommand.
  destruct (negb (isGuildCommandContext context)); [done |].
  unfold bind.
  destruct (requestCreatableCommand context commandName true w) as [[n | a] w1] eqn:E.
  - apply requestCreatableCommand_found in E as [Hfree [Hc _]].
    destruct (saveCommand_table context "created" n given None w1) as [Hs | [c' Hs]];
      rewrite Hs, ?Hc; [done |].
    rewrite lookup_insert_ne; [done |]. intros <-. rewrite Hc in Hfree. congruence.
  - pose proof (requestCreatableCommand_untouched context commandName true w) as [Hc _].
    rewrite E in Hc. simpl in *. by rewrite Hc.
Qed.

(** X6. [editCommand] changes at most one entry of the table: either the
    table is as it was, or it differs in the one entry of a stored command
    that has a body of its own and is not managed, which is replaced by a
    command with a body of its own. No command is created, and no alias
    and no managed command is changed. *)
Theorem editCommand_replaces_only_editable context commandName given w :
  let w' := (editCommand context commandName given w).2 in
  commands w' = commands w
  ∨ ∃ n r r',
      commands w !! (guildId context, n) = Some (RawCommand r)
      ∧ default false (managed r) = false
      ∧ commands w' = <[(guildId context, n) := RawCommand r']> (commands w).
Proof.
  unfold CustomCommand.editCommand.
  destruct (negb (isGuildCommandContext context)); [by left |].
  unfold bind.
  destruct (requestEditableCommand context commandName false true true w)
    as [[[n [r | a]] | a] w1] eqn:E; simpl.
  - apply requestEditableCommand_found in E as (Hn & Hm & Hc & _).
    destruct (saveCommand_table context "edited" n given (Some r) w1) as [Hs | [c' Hs]];
      rewrite Hs, ?Hc; [by left |].
    right. exists n, r, c'. rewrite Hc in Hn. done.
  - apply requestEditableCommand_found in E as (_ & _ & Hc & _). by left.
  - pose proof (requestEditableCommand_untouched context commandName false true true w)
      as [Hc _].
    rewrite E in Hc. by left.
Qed.

(** X7. [setCommand] never replaces an alias: a command that stands for a
    tag is still in the table, unchanged, afterwards. *)
Theorem setCommand_keeps_aliases context commandName given w k a :
  commands w !! k = Some (AliasedCommand a) →
  commands (setCommand context commandName given w).2 !! k = Some (AliasedCommand a).
Proof.
  intros Hk. unfold CustomCommand.setCommand.
  destruct (negb (isGuildCommandContext context)); [done |].
  unfold bind.
  destruct (requestSettableCommand context commandName true w)
    as [[[n [[r | a'] |]] | a'] w1] eqn:E; simpl.
  - apply requestSettableCommand_found in E as (Hn & Hc & _).
    destruct (saveCommand_table context "set" n given (Some r) w1) as [Hs | [c' Hs]];
      rewrite Hs, ?Hc; [done |].
    rewrite lookup_insert_ne; [done |]. intros <-. rewrite Hc in Hn. congruence.
  - apply requestSettableCommand_found in E as (_ & Hc & _). by rewrite Hc.
  - apply requestSettableCommand_found in E as (Hn & Hc & _).
    destruct (saveCommand_table context "set" n given None w1) as [Hs | [c' Hs]];
      rewrite Hs, ?Hc; [done |].
    rewrite lookup_insert_ne; [done |]. intros <-. rewrite Hc in Hn. congruence.
  - pose proof (requestSettableCommand_untouched context commandName true w) as [Hc _].
    rewrite E in Hc. simpl in Hc. by rewrite Hc.
Qed.

Lemma requestCommandName_given n query w :
  normalizeName n = n → n ≠ "" →
  requestCommandName (Some n) query w = (Some n, w).
Proof.
  intros Hn Hne. unfold requestCommandName. rewrite Hn.
  by rewrite (proj2 (nonEmpty_true n) Hne).
Qed.

Lemma requestCommand_given context n w :
  normalizeName n = n → n ≠ "" →
  requestCommand context (Some n) true w
  = (Found (n, commands w !! (guildId context, n)), w).
Proof.
  intros Hn Hne. unfold requestCommand, bind. simpl.
  rewrite (requestCommandName_given n nameQuery w Hn Hne).
  unfold getCommand, ret. by destruct (commands w !! (guildId context, n)).
Qed.

Lemma saveCommand_clean context operation n script current w :
  script ≠ "" → errors (check script) = [] →
  saveCommand context operation n (Some script) current w
  = (Some ("✅ Custom command `" ++ n ++ "` " ++ operation ++ "." ++ nl
             ++ stringifyAnalysis (check script)),
     written context n (savedAs context n script current) w).
Proof.
  intros Hs He. unfold CustomCommand.saveCommand, bind, requestCommandContent.
  rewrite (proj2 (nonEmpty_true script) Hs). unfold ret. by rewrite He.
Qed.

(** X8. A successful edit. For a stored command with a body of its own
    that is not managed and a script without analysis errors,
    [editCommand] answers that the command was edited and writes one
    command: the new script, the caller as author and authorizer, and the
    flags, cooldown, help, language, roles, use count and hidden state of
    the command it replaces. *)
Theorem editCommand_keeps_settings context n script w r :
  isGuildCommandContext context = true →
  normalizeName n = n → n ≠ "" →
  commands w !! (guildId context, n) = Some (RawCommand r) →
  default false (managed r) = false →
  script ≠ "" → errors (check script) = [] →
  editCommand context (Some n) (Some script) w
  = (Some ("✅ Custom command `" ++ n ++ "` edited." ++ nl
             ++ stringifyAnalysis (check script)),
     written context n
       {| content := script;
          author := authorId context;
          authorizer := Some (authorId context);
          hidden := Some (default (startsWith "_" n) (hidden r));
          managed := None;
          flags := flags r; cooldown := cooldown r; help := help r;
          lang := lang r; roles := roles r; uses := uses r |} w).
Proof.
  intros Hg Hn Hne Hk Hm Hs He.
  unfold CustomCommand.editCommand, requestEditableCommand, requestSettableCommand.
  rewrite Hg. unfold bind at 1 2 3. simpl.
  rewrite (requestCommand_given context n w Hn Hne), Hk. unfold ret. simpl.
  rewrite Hm. simpl.
  by rewrite (saveCommand_clean context "edited" n script (Some r) w Hs He).
Qed.

(** X9. [setCommand] creates or replaces. For a name with no command, or
    with a command that has a body of its own (managed or not), and a
    script without analysis errors, it writes the command built from the
    script: a new command is hidden exactly when its name starts with an
    underscore, and the written command is never managed. *)
Theorem setCommand_creates_or_replaces context n script w current :
  isGuildCommandContext context = true →
  normalizeName n = n → n ≠ "" →
  commands w !! (guildId context, n) = RawCommand <$> current →
  script ≠ "" → errors (check script) = [] →
  setCommand context (Some n) (Some script) w
  = (Some ("✅ Custom command `" ++ n ++ "` set." ++ nl
             ++ stringifyAnalysis (check script)),
     written context n (savedAs context n script current) w)
  ∧ managed (savedAs context n script current) = None
  ∧ (current = None →
     hidden (savedAs context n script current) = Some (startsWith "_" n)).
Proof.
  intros Hg Hn Hne Hk Hs He. split_and!; [| done | by intros ->].
  unfold CustomCommand.setCommand, requestSettableCommand.
  rewrite Hg. unfold bind at 1 2. simpl.
  rewrite (requestCommand_given context n w Hn Hne), Hk. unfold ret.
  destruct current as [r |]; simpl;
    by rewrite (saveCommand_clean context "set" n script _ w Hs He).
Qed.

(** X10. Creating twice. After [createCommand] has written a command,
    a second [createCommand] under the same name answers that the command
    already exists and changes nothing. *)
Theorem createCommand_twice context n script script' w :
  isGuildCommandContext context = true →
  normalizeName n = n → n ≠ "" →
  commands w !! (guildId context, n) = None →
  script ≠ "" → errors (check script) = [] →
  let first := createCommand context (Some n) (Some script) w in
  first.2 = written context n (savedAs context n script None) w
  ∧ createCommand context (Some n) (Some script') first.2
    = (Some ("❌ The `" ++ n ++ "` custom command already exists!"), first.2).
Proof.
  intros Hg Hn Hne Hk Hs He first.
  assert (Hfirst : first.2 = written context n (savedAs context n script None) w).
  { subst first. unfold CustomCommand.createCommand, requestCreatableCommand.
    rewrite Hg. unfold bind at 1 2. simpl.
    rewrite (requestCommand_given context n w Hn Hne), Hk. unfold ret. simpl.
    by rewrite (saveCommand_clean context "created" n script None w Hs He). }
  split; [exact Hfirst |]. rewrite Hfirst.
  unfold CustomCommand.createCommand, requestCreatableCommand.
  rewrite Hg. unfold bind. simpl.
  rewrite (requestCommand_given context n _ Hn Hne). simpl.
  by rewrite lookup_insert_eq.
Qed.

End Operations.

Lemma createCommand_keeps_every_command_witness :
  commands (createCommand sampleCheck sampleStringify moderator
              (Some "greet") (Some "Bye") greetOnly).2
    !! ("g1", "greet") = Some (RawCommand greet.2).
Proof.
  apply (createCommand_keeps_every_command sampleCheck sampleStringify moderator
           (Some "greet") (Some "Bye") greetOnly ("g1", "greet") (RawCommand greet.2)).
  reflexivity.
Defined.

Lemma setCommand_keeps_aliases_witness :
  commands (setCommand sampleCheck sampleStringify moderator
              (Some "poll") (Some "Bye") pollOnly).2
    !! ("g1", "poll") = Some (AliasedCommand imported).
Proof.
  apply (setCommand_keeps_aliases sampleCheck sampleStringify moderator
           (Some "poll") (Some "Bye") pollOnly ("g1", "poll") imported).
  reflexivity.
Defined.

Lemma editCommand_keeps_settings_witness :
  editCommand sampleCheck sampleStringify moderator (Some "greet") (Some "Bye") greetOnly
  = (Some ("✅ Custom command `greet` edited." ++ nl ++ sampleStringify (sampleCheck "Bye")),
     written moderator "greet"
       {| content := "Bye"; author := "u1"; authorizer := Some "u1";
          hidden := Some (default (startsWith "_" "greet") (hidden greet.2));
          managed := None;
          flags := flags greet.2; cooldown := cooldown greet.2; help := help greet.2;
          lang := lang greet.2; roles := roles greet.2; uses := uses greet.2 |}
       greetOnly).
Proof.
  apply (editCommand_keeps_settings sampleCheck sampleStringify moderator
           "greet" "Bye" greetOnly greet.2); reflexivity || discriminate.
Defined.

Lemma setCommand_creates_or_replaces_witness :
  setCommand sampleCheck sampleStringify moderator (Some "_secret") (Some "Bye") emptyStore
  = (Some ("✅ Custom command `_secret` set." ++ nl ++ sampleStringify (sampleCheck "Bye")),
     written moderator "_secret" (savedAs moderator "_secret" "Bye" None) emptyStore)
  ∧ managed (savedAs moderator "_secret" "Bye" None) = None
  ∧ (@None StoredRawGuildCommand = None →
     hidden (savedAs moderator "_secret" "Bye" None) = Some (startsWith "_" "_secret")).
Proof.
  apply (setCommand_creates_or_replaces sampleCheck sampleStringify moderator
           "_secret" "Bye" emptyStore None); reflexivity || discriminate.
Defined.

Lemma createCommand_twice_witness :
  let first := createCommand sampleCheck sampleStringify moderator
                 (Some "hi") (Some "Hello") emptyStore in
  first.2 = written moderator "hi" (savedAs moderator "hi" "Hello" None) emptyStore
  ∧ createCommand sampleCheck sampleStringify moderator (Some "hi") (Some "Again") first.2
    = (Some ("❌ The `hi` custom command already exists!"), first.2).
Proof.
  apply (createCommand_twice sampleCheck sampleStringify moderator
           "hi" "Hello" "Again" emptyStore); reflexivity || discriminate.
Defined.

End ManagerMore.

Module FlagsFacts.
Import CustomCommand CustomCommandSamples CustomCommandFacts ManagerVocabulary Flags.
Local Open Scope nat_scope.
Local Open Scope list_scope.

Lemma hasFlag_false letter flags :
  hasFlag letter flags = false ↔ letter ∉ flag <$> flags.
Proof.
  unfold hasFlag. induction flags as [| f fs IH]; simpl.
  - split; [intros _; apply not_elem_of_nil | done].
  - rewrite orb_false_iff, IH, not_elem_of_cons, String.eqb_neq.
    intuition congruence.
Qed.

Lemma hasWord_false w flags :
  hasWord w flags = false ↔ w ∉ word <$> flags.
Proof.
  unfold hasWord. induction flags as [| f fs IH]; simpl.
  - split; [intros _; apply not_elem_of_nil | done].
  - rewrite orb_false_iff, IH, not_elem_of_cons, String.eqb_neq.
    intuition congruence.
Qed.

Lemma flagWord_lowercase first : lowercaseWord (flagWord first).
Proof.
  unfold lowercaseWord, flagWord.
  induction first as [| c s IH]; simpl; [done |].
  destruct (isLower c) eqn:E; simpl; [| done].
  intros c' [<- | Hin]; [| by apply IH].
  revert E. destruct c as [[] [] [] [] [] [] [] []]; vm_compute; congruence.
Qed.

Lemma flagDesc_oneLine more : oneLine (flagDesc more).
Proof.
  unfold oneLine, flagDesc. generalize (String.concat " " more).
  induction s as [| c s IH]; simpl; [tauto |].
  intros [Heq | Hin]; [| done].
  destruct (Ascii.eqb c newline) eqn:E; [discriminate Heq |].
  apply Ascii.eqb_neq in E. congruence.
Qed.

Lemma addFlags_result flags entries flags' :
  addFlags flags entries = inr flags' →
  ∃ new,
    flags' = flags ++ new
    ∧ flag <$> new = entries.*1
    ∧ Forall (fun f => lowercaseWord (word f) ∧ oneLine (desc f)) new
    ∧ (distinctFlags flags → distinctFlags flags').
Proof.
  revert flags. induction entries as [| [letter args] rest IH]; intros flags Hrun.
  - simpl in Hrun. simplify_eq. exists []. rewrite app_nil_r. by split_and!.
  - simpl in Hrun. destruct args as [[| first more] |]; try done.
    destruct (hasFlag letter flags) eqn:Hf; [done |].
    destruct (hasWord (flagWord first) flags) eqn:Hw; [done |].
    apply IH in Hrun as (new & -> & Hletters & Hshape & Hdistinct).
    eexists (_ :: new). split_and!.
    + by rewrite <- app_assoc.
    + by rewrite fmap_cons, Hletters.
    + constructor; [| done]. simpl.
      split; [apply flagWord_lowercase | apply flagDesc_oneLine].
    + intros [Hl Hws]. apply Hdistinct. unfold distinctFlags.
      rewrite !fmap_app. simpl. split.
      * apply NoDup_app. split_and!; [done | | apply NoDup_singleton].
        intros x Hx Hx'. apply list_elem_of_singleton in Hx' as ->.
        by apply hasFlag_false in Hf.
      * apply NoDup_app. split_and!; [done | | apply NoDup_singleton].
        intros x Hx Hx'. apply list_elem_of_singleton in Hx' as ->.
        by apply hasWord_false in Hw.
Qed.

(** X11. [addCommandFlags] writes all the flags or none. When it writes,
    the command is a stored command with a body of its own that is not
    managed, and the written list is the stored list followed by one flag
    per entry, in order, each with a word of lowercase letters only and a
    description without line breaks; if the letters and the words of the
    stored flags were pairwise distinct, so are those of the written list.
    The command table itself is not written by this function. *)
Theorem addCommandFlags_extends_distinct context commandName parsed w answer write w' :
  addCommandFlags context commandName parsed w = (answer, Some write, w') →
  ∃ r new,
    commands w !! (guildId context, fw_command write) = Some (RawCommand r)
    ∧ isManaged (RawCommand r) = false
    ∧ fw_guild write = guildId context
    ∧ fw_flags write = default [] (flags r) ++ new
    ∧ flag <$> new = (withoutUndefined parsed).*1
    ∧ Forall (fun f => lowercaseWord (word f) ∧ oneLine (desc f)) new
    ∧ (distinctFlags (default [] (flags r)) → distinctFlags (fw_flags write))
    ∧ untouched w w'.
Proof.
  unfold addCommandFlags. intros Hrun.
  destruct (negb (isGuildCommandContext context)); [by simplify_eq/= |].
  unfold bind in Hrun.
  destruct (requestEditableCommand context (Some commandName) false true true w)
    as [[[n [r | a]] | a] w1] eqn:E; simpl in Hrun; try (by simplify_eq/=).
  apply ManagerMore.requestEditableCommand_found in E as (Hn & Hm & Hu).
  destruct (addFlags (default [] (flags r)) (withoutUndefined parsed)) as [e | fs] eqn:Hadd;
    unfold ret in Hrun; simplify_eq/=.
  apply addFlags_result in Hadd as (new & -> & Hletters & Hshape & Hdistinct).
  exists r, new. destruct Hu as [Hc Hs]. rewrite <- Hc. by split_and!.
Qed.

Lemma addCommandFlags_extends_distinct_witness :
  ∃ r new,
    commands greetOnly !! ("g1", "greet") = Some (RawCommand r)
    ∧ isManaged (RawCommand r) = false
    ∧ "g1" = guildId moderator
    ∧ default [] (flags greet.2)
      ++ [{| flag := "c"; word := "ategory"; desc := "The category" |}]
      = default [] (flags r) ++ new
    ∧ flag <$> new = (withoutUndefined categoryFlag).*1
    ∧ Forall (fun f => lowercaseWord (word f) ∧ oneLine (desc f)) new
    ∧ (distinctFlags (default [] (flags r)) →
       distinctFlags (default [] (flags greet.2)
                      ++ [{| flag := "c"; word := "ategory"; desc := "The category" |}]))
    ∧ untouched greetOnly greetOnly.
Proof.
  apply (addCommandFlags_extends_distinct moderator "greet" categoryFlag
           greetOnly (Some "✅ The flags for `greet` have been updated.")
           {| fw_guild := "g1"; fw_command := "greet";
              fw_flags := default [] (flags greet.2)
                ++ [{| flag := "c"; word := "ategory"; desc := "The category" |}] |}
           greetOnly).
  reflexivity.
Defined.

End FlagsFacts.

Module InstallFacts.
Import CustomCommand Install InstallSamples.
Local Open Scope Z_scope.
Local Open Scope list_scope.

Example install_into_busy_guild :
  installCommands CustomCommand.toLowerCase noSignature 3 CustomCommandSamples.moderator
    None (Some address) download busy (Some key)
  = Some {| question := Some (String.concat nl
              [unsignedWarning; "";
               "Salutations! You have discovered the super handy CommandInstaller9000!";
               ""; "If you decide to proceed, this will:";
               "❌ Ignore the command `Hi` as a command with that name already exists";
               "✅ Import the autoresponse `ping`";
               "✅ Import the autoresponse `p.ng` (regex)";
               "✅ Import the autoresponse to everything";
               "This will also:"; " - Set you as the author for all imported commands";
               ""; "If you wish to continue, please say `thanks, shrinkwrapper!`"]);
            answer := "✅ No problem, my job here is done.";
            calls := [AddAutoresponse "g1" "ping" false "_autoresponse_1";
                      SetCommand "g1" "_autoresponse_1" (authoredManaged "u1" hello);
                      AddAutoresponse "g1" "p.ng" true "_autoresponse_2";
                      SetCommand "g1" "_autoresponse_2" (authoredManaged "u1" hello);
                      SetEverything "g1" "_autoresponse_3";
                      SetCommand "g1" "_autoresponse_3" (authoredManaged "u1" hello)] |}.
Proof. vm_compute. reflexivity. Qed.

(** *** The search for a free name *)

Lemma autoresponseName_inj i j : autoresponseName i = autoresponseName j → i = j.
Proof.
  unfold autoresponseName. intros H.
  apply (inj (String.app "_autoresponse_")) in H. by apply (inj pretty) in H.
Qed.

Lemma nextFree_spec fuel known a n i :
  nextFree fuel known a = Some (n, i) →
  a < i ∧ n = autoresponseName i ∧ known !! n = None.
Proof.
  revert a. induction fuel as [| fuel IH]; intros a Hrun; [done |].
  cbn [nextFree] in Hrun.
  destruct (known !! autoresponseName (a + 1)) eqn:E.
  - apply IH in Hrun as (? & ? & ?). split_and!; [lia | done | done].
  - simplify_eq. split_and!; [lia | done | done].
Qed.

Lemma nextFree_delete fuel known a i :
  i ≤ a →
  nextFree fuel (delete (autoresponseName i) known) a = nextFree fuel known a.
Proof.
  revert a. induction fuel as [| fuel IH]; intros a Hle; [done |].
  cbn [nextFree]. rewrite lookup_delete_ne.
  - rewrite IH by lia. done.
  - intros H. apply autoresponseName_inj in H. lia.
Qed.

(** With more fuel than there are commands the search ends. *)
Lemma nextFree_terminates fuel known a :
  (size known < fuel)%nat → is_Some (nextFree fuel known a).
Proof.
  revert known a. induction fuel as [| fuel IH]; intros known a Hsize; [lia |].
  cbn [nextFree].
  destruct (known !! autoresponseName (a + 1)) as [c |] eqn:E; [| by eexists].
  rewrite <- (nextFree_delete fuel known (a + 1) (a + 1)) by lia.
  apply IH. rewrite map_size_delete, E. simpl.
  assert (size known ≠ 0%nat); [| lia].
  intros H0. apply map_size_empty_inv in H0. subst. by rewrite lookup_empty in E.
Qed.

(** *** Running the steps *)

Lemma runSteps_names fuel known guild aid steps a l :
  runSteps fuel known guild aid steps a = Some l →
  ∃ idx,
    pickedNames l = autoresponseName <$> idx
    ∧ Forall (freshAbove known a) idx
    ∧ NoDup idx.
Proof.
  revert a l. induction steps as [| step rest IH]; intros a l Hrun.
  - simpl in Hrun. simplify_eq. exists []. by split_and!; constructor.
  - cbn [runSteps] in Hrun.
    destruct (runStep fuel known guild aid step a) as [[first a'] |] eqn:Hstep;
      [| done]. simpl in Hrun.
    destruct (runSteps fuel known guild aid rest a') as [more |] eqn:Hrest;
      [| done]. simpl in Hrun. simplify_eq.
    destruct (IH _ _ Hrest) as (idx & Hnames & Hfresh & Hsorted).
    unfold pickedNames in *. rewrite omap_app, Hnames.
    destruct step as [n c | au | e]; simpl in Hstep.
    + simplify_eq. simpl. by exists idx.
    + destruct (nextFree fuel known a) as [[n i] |] eqn:Hfree; [| done].
      simpl in Hstep. simplify_eq.
      apply nextFree_spec in Hfree as (Hlt & -> & Hnone).
      exists (a' :: idx). simpl. split_and!; [done | |].
      * constructor; [by split |].
        eapply Forall_impl; [exact Hfresh |]. intros j [? ?]. split; [lia | done].
      * constructor; [| done]. intros Hin.
        rewrite Forall_forall in Hfresh. destruct (Hfresh _ Hin). lia.
    + destruct (nextFree fuel known a) as [[n i] |] eqn:Hfree; [| done].
      simpl in Hstep. simplify_eq.
      apply nextFree_spec in Hfree as (Hlt & -> & Hnone).
      exists (a' :: idx). simpl. split_and!; [done | |].
      * constructor; [by split |].
        eapply Forall_impl; [exact Hfresh |]. intros j [? ?]. split; [lia | done].
      * constructor; [| done]. intros Hin.
        rewrite Forall_forall in Hfresh. destruct (Hfresh _ Hin). lia.
Qed.

Lemma runSteps_terminates fuel known guild aid steps a :
  (size known < fuel)%nat → is_Some (runSteps fuel known guild aid steps a).
Proof.
  intros Hfuel. revert a. induction steps as [| step rest IH]; intros a; [by eexists |].
  cbn [runSteps].
  assert (is_Some (runStep fuel known guild aid step a)) as [r Hr].
  { destruct step; simpl; [by eexists | |];
      destruct (nextFree_terminates fuel known a Hfuel) as [f ->]; by eexists. }
  rewrite Hr. simpl. destruct (IH r.2) as [l' ->]. by eexists.
Qed.

Lemma runSteps_added fuel known guild aid steps a l :
  runSteps fuel known guild aid steps a = Some l →
  addedAutoresponses l = autoresponseSteps steps.
Proof.
  revert a l. induction steps as [| step rest IH]; intros a l Hrun.
  - simpl in Hrun. by simplify_eq.
  - cbn [runSteps] in Hrun.
    destruct (runStep fuel known guild aid step a) as [[first a'] |] eqn:Hstep;
      [| done]. simpl in Hrun.
    destruct (runSteps fuel known guild aid rest a') as [more |] eqn:Hrest;
      [| done]. simpl in Hrun. simplify_eq.
    apply IH in Hrest. unfold addedAutoresponses, autoresponseSteps in *.
    rewrite List.filter_app, length_app, Hrest.
    destruct step as [n c | au | e]; simpl in Hstep.
    + by simplify_eq.
    + destruct (nextFree fuel known a) as [[n i] |]; [| done]. by simplify_eq/=.
    + destruct (nextFree fuel known a) as [[n i] |]; [| done]. by simplify_eq/=.
Qed.

Lemma provenance_mono known aid steps steps' entry :
  steps ⊆ steps' → provenance known aid steps entry → provenance known aid steps' entry.
Proof.
  intros Hsub [(c & Hin & Heq) | H]; [left | by right].
  exists c. split; [by apply Hsub | done].
Qed.

Lemma runSteps_written fuel known guild aid steps a l :
  runSteps fuel known guild aid steps a = Some l →
  Forall (provenance known aid steps) (writtenCommands l).
Proof.
  revert a l. induction steps as [| step rest IH]; intros a l Hrun.
  - simpl in Hrun. simplify_eq. constructor.
  - cbn [runSteps] in Hrun.
    destruct (runStep fuel known guild aid step a) as [[first a'] |] eqn:Hstep;
      [| done]. simpl in Hrun.
    destruct (runSteps fuel known guild aid rest a') as [more |] eqn:Hrest;
      [| done]. simpl in Hrun. simplify_eq.
    apply IH in Hrest. unfold writtenCommands in *. rewrite omap_app.
    apply Forall_app. split.
    + destruct step as [n c | au | e]; simpl in Hstep.
      * simplify_eq. simpl. constructor; [| constructor].
        left. exists c. split; [apply list_elem_of_here | done].
      * destruct (nextFree fuel known a) as [[n i] |] eqn:Hfree; [| done].
        simpl in Hstep. simplify_eq. apply nextFree_spec in Hfree as (_ & _ & Hnone).
        simpl. constructor; [| constructor]. right. by split; [| eexists].
      * destruct (nextFree fuel known a) as [[n i] |] eqn:Hfree; [| done].
        simpl in Hstep. simplify_eq. apply nextFree_spec in Hfree as (_ & _ & Hnone).
        simpl. constructor; [| constructor]. right. by split; [| eexists].
    + eapply Forall_impl; [exact Hrest |]. intros entry.
      apply provenance_mono. set_solver.
Qed.

(** *** The plan *)

Section PlanFacts.

Variable jsToLowerCase : string → string.
Variable signShrinkwrap : Shrinkwrap → string.

Local Abbreviation planCommands := (planCommands jsToLowerCase).
Local Abbreviation plan := (plan jsToLowerCase signShrinkwrap).
Local Abbreviation installCommands := (installCommands jsToLowerCase signShrinkwrap).
Local Abbreviation unknownCommands := (unknownCommands jsToLowerCase).

Lemma unknownCommands_snoc known steps step :
  unknownCommands known steps →
  (∀ n c, step = ImportCommand n c → known !! jsToLowerCase n = None) →
  unknownCommands known (steps ++ [step]).
Proof.
  intros Hu Hs n c Hin. apply elem_of_app in Hin as [Hin | Hin]; [by eapply Hu |].
  apply list_elem_of_singleton in Hin. by eapply Hs.
Qed.

Lemma planCommands_steps known entries p :
  unknownCommands known p.2 →
  unknownCommands known (planCommands known entries p).2
  ∧ autoresponseSteps (planCommands known entries p).2 = autoresponseSteps p.2.
Proof.
  revert p. induction entries as [| [n c] rest IH]; intros p Hu; [done |].
  cbn [Install.planCommands]. case_decide as Hk.
  - match goal with
    | |- context [Install.planCommands _ _ rest ?q] =>
        destruct (IH q Hu) as [H1 H2]; split; [exact H1 | exact H2]
    end.
  - match goal with
    | |- context [Install.planCommands _ _ rest ?q] =>
        destruct (IH q) as [H1 H2]
    end.
    + simpl. apply unknownCommands_snoc; [done |].
      intros n' c' [= <- <-]. by apply eq_None_not_Some.
    + split; [done |]. rewrite H2. unfold autoresponseSteps. simpl.
      rewrite List.filter_app, length_app. simpl. lia.
Qed.

Lemma planAutoresponses_steps known count entries p :
  unknownCommands known p.2 →
  unknownCommands known (planAutoresponses count entries p).2
  ∧ autoresponseSteps (planAutoresponses count entries p).2
    = (autoresponseSteps p.2 + (List.length entries `min` (20 - count)))%nat.
Proof.
  revert count p. induction entries as [| au rest IH]; intros count p Hu.
  - simpl. split; [done | lia].
  - cbn [planAutoresponses]. destruct (20 <=? count)%nat eqn:E.
    + apply Nat.leb_le in E.
      match goal with
      | |- context [planAutoresponses _ rest ?q] =>
          destruct (IH (S count) q Hu) as [H1 H2]
      end.
      split; [done |]. rewrite H2. cbn [say snd List.length]. lia.
    + apply Nat.leb_gt in E.
      match goal with
      | |- context [planAutoresponses _ rest ?q] =>
          destruct (IH (S count) q) as [H1 H2]
      end.
      * simpl. apply unknownCommands_snoc; [done | by intros].
      * split; [done |]. rewrite H2. unfold autoresponseSteps.
        cbn [sayAndDo snd]. rewrite List.filter_app, length_app.
        cbn [List.filter List.length]. lia.
Qed.

Lemma planEverything_steps known existing e p :
  unknownCommands known p.2 →
  unknownCommands known (planEverything existing e p).2
  ∧ autoresponseSteps (planEverything existing e p).2 = autoresponseSteps p.2.
Proof.
  intros Hu. destruct e as [c |], existing as [x |]; simpl; try done.
  split; [apply unknownCommands_snoc; [done | by intros] |].
  unfold autoresponseSteps. rewrite List.filter_app, length_app. simpl. lia.
Qed.

Lemma plan_steps data s :
  unknownCommands (commands data) (plan data s).2
  ∧ autoresponseSteps (plan data s).2
    = (List.length (ar (payload s))
       `min` (20 - countAutoresponses (autoResponses data)))%nat.
Proof.
  unfold Install.plan. cbn [say snd].
  set (p0 := (_, []) : Plan).
  assert (H0 : unknownCommands (commands data) p0.2).
  { intros n c Hin. by apply elem_of_nil in Hin. }
  destruct (planCommands_steps (commands data) (cc (payload s)) p0 H0) as [H1 E1].
  destruct (planAutoresponses_steps (commands data)
              (countAutoresponses (autoResponses data)) (ar (payload s)) _ H1)
    as [H2 E2].
  destruct (planEverything_steps (commands data) (everythingAutoResponse data)
              (are (payload s)) _ H2) as [H3 E3].
  split; [exact H3 |]. rewrite E3, E2, E1. done.
Qed.

(** The runs of [installCommands] that write: the bundle that was read and
    the steps that ran. *)
Lemma installCommands_writes fuel context url attachment fetch data reply o :
  installCommands fuel context url attachment fetch data reply = Some o →
  calls o = []
  ∨ ∃ s, reply = Some key
       ∧ runSteps fuel (commands data) (guildId context) (authorId context)
           (plan data s).2 (-1) = Some (calls o).
Proof.
  unfold Install.installCommands, refuse. intros Hrun.
  destruct (negb (isGuildCommandContext context)); [left; by simplify_eq |].
  destruct (match url with Some u => Some u | None => attachment end) as [u |];
    [| left; by simplify_eq].
  destruct (fetch u) as [s |]; [| left; by simplify_eq].
  destruct (bool_decide (reply = Some key)) eqn:Hreply; cbn [negb] in Hrun;
    [| left; by simplify_eq].
  apply bool_decide_eq_true in Hreply.
  destruct (runSteps fuel (commands data) (guildId context) (authorId context)
              (plan data s).2 (-1)) as [l |] eqn:Hsteps; [| done].
  cbn [mbind option_bind] in Hrun. simplify_eq. right. by exists s.
Qed.

(** X12. [installCommands] ends: with more fuel than the guild has
    commands, every search for a free name ends and the run has an
    outcome. Unless the user answers with the exact phrase, the outcome
    has no write. *)
Theorem install_ends_and_needs_consent fuel context url attachment fetch data reply :
  (size (commands data) < fuel)%nat →
  ∃ o,
    installCommands fuel context url attachment fetch data reply = Some o
    ∧ (reply ≠ Some key → calls o = []).
Proof.
  intros Hfuel. unfold Install.installCommands, refuse.
  destruct (negb (isGuildCommandContext context)); [by eexists |].
  destruct (match url with Some u => Some u | None => attachment end) as [u |];
    [| by eexists].
  destruct (fetch u) as [s |]; [| by eexists].
  destruct (bool_decide (reply = Some key)) eqn:Hreply; cbn [negb]; [| by eexists].
  apply bool_decide_eq_true in Hreply.
  destruct (runSteps_terminates fuel (commands data) (guildId context)
              (authorId context) (plan data s).2 (-1) Hfuel) as [l ->].
  cbn [mbind option_bind]. by eexists.
Qed.

(** X13. [installCommands] adds at most as many autoresponses as fit
    under the limit of 20: the number it adds is at most 20 minus the
    number the guild has, and none when the guild has 20 or more. *)
Theorem install_respects_autoresponse_limit
    fuel context url attachment fetch data reply o :
  installCommands fuel context url attachment fetch data reply = Some o →
  (addedAutoresponses (calls o) ≤ 20 - countAutoresponses (autoResponses data))%nat.
Proof.
  intros Hrun. apply installCommands_writes in Hrun as [-> | (s & _ & Hsteps)].
  - unfold addedAutoresponses. simpl. lia.
  - rewrite (runSteps_added _ _ _ _ _ _ _ Hsteps).
    rewrite (proj2 (plan_steps data s)). lia.
Qed.

(** X14. The command names [installCommands] picks for the autoresponses
    it imports are pairwise distinct, and none of them is the name of a
    command of the guild. *)
Theorem install_picks_fresh_names fuel context url attachment fetch data reply o :
  installCommands fuel context url attachment fetch data reply = Some o →
  NoDup (pickedNames (calls o))
  ∧ ∀ n, n ∈ pickedNames (calls o) → commands data !! n = None.
Proof.
  intros Hrun. apply installCommands_writes in Hrun as [-> | (s & _ & Hsteps)].
  - split; [constructor |]. intros n Hin. by apply elem_of_nil in Hin.
  - apply runSteps_names in Hsteps as (idx & -> & Hfresh & Hnodup). split.
    + apply NoDup_fmap_2; [| done]. intros i j. apply autoresponseName_inj.
    + intros n Hin. apply list_elem_of_fmap in Hin as (i & -> & Hi).
      rewrite Forall_forall in Hfresh. by destruct (Hfresh _ Hi).
Qed.

(** X15. Every command [installCommands] writes has the installing user
    as author and no authorizer. It is written either under a name of the
    bundle whose lowercase form is not the name of a command of the guild,
    or under a name that is not the name of a command of the guild, as a
    hidden and managed command. When every command of the guild is stored
    under a name that is its own lowercase form, no write goes to the name
    of a command the guild had before the run. Without that the write can
    replace a command: see [install_replaces_mixed_case_command]; and one
    run can write twice under one name: see [install_writes_one_name_twice]. *)
Theorem install_writes_only_new_commands
    fuel context url attachment fetch data reply o n r :
  installCommands fuel context url attachment fetch data reply = Some o →
  (n, r) ∈ writtenCommands (calls o) →
  author r = authorId context
  ∧ authorizer r = None
  ∧ (commands data !! jsToLowerCase n = None
     ∨ (commands data !! n = None ∧ hidden r = Some true ∧ managed r = Some true))
  ∧ ((∀ k, is_Some (commands data !! k) → jsToLowerCase k = k) →
     commands data !! n = None).
Proof.
  intros Hrun Hin. apply installCommands_writes in Hrun as [Hnil | (s & _ & Hsteps)].
  - rewrite Hnil in Hin. by apply elem_of_nil in Hin.
  - apply runSteps_written in Hsteps. rewrite Forall_forall in Hsteps.
    destruct (Hsteps _ Hin) as [(c & Hstep & Heq) | (Hnone & c & Heq)];
      simpl in *; subst r.
    + apply (proj1 (plan_steps data s)) in Hstep.
      split_and!; [done | done | by left |].
      intros Hlower. apply eq_None_not_Some. intros Hsome.
      rewrite <- (Hlower _ Hsome), Hstep in Hsome. by destruct Hsome.
    + split_and!; [done | done | by right | done].
Qed.

End PlanFacts.

Lemma install_ends_and_needs_consent_witness :
  ∃ o,
    installCommands CustomCommand.toLowerCase noSignature 3 CustomCommandSamples.moderator
      None (Some address) download busy None = Some o
    ∧ (None ≠ Some key → calls o = []).
Proof.
  apply (install_ends_and_needs_consent CustomCommand.toLowerCase noSignature 3
           CustomCommandSamples.moderator None (Some address) download busy None).
  vm_compute. lia.
Defined.

Lemma install_respects_autoresponse_limit_witness :
  (addedAutoresponses (calls installed) ≤ 20 - countAutoresponses (autoResponses busy))%nat.
Proof.
  apply (install_respects_autoresponse_limit CustomCommand.toLowerCase noSignature 3
           CustomCommandSamples.moderator None (Some address) download busy (Some key)
           installed).
  vm_compute. reflexivity.
Defined.

Lemma install_picks_fresh_names_witness :
  NoDup (pickedNames (calls installed))
  ∧ ∀ n, n ∈ pickedNames (calls installed) → commands busy !! n = None.
Proof.
  apply (install_picks_fresh_names CustomCommand.toLowerCase noSignature 3
           CustomCommandSamples.moderator None (Some address) download busy (Some key)
           installed).
  vm_compute. reflexivity.
Defined.

Lemma install_writes_only_new_commands_witness :
  author (authoredManaged "u1" hello) = authorId CustomCommandSamples.moderator
  ∧ authorizer (authoredManaged "u1" hello) = None
  ∧ (commands busy !! CustomCommand.toLowerCase "_autoresponse_1" = None
     ∨ (commands busy !! "_autoresponse_1" = None
        ∧ hidden (authoredManaged "u1" hello) = Some true
        ∧ managed (authoredManaged "u1" hello) = Some true))
  ∧ ((∀ k, is_Some (commands busy !! k) → CustomCommand.toLowerCase k = k) →
     commands busy !! "_autoresponse_1" = None).
Proof.
  apply (install_writes_only_new_commands CustomCommand.toLowerCase noSignature 3
           CustomCommandSamples.moderator None (Some address) download busy (Some key)
           installed "_autoresponse_1" (authoredManaged "u1" hello)).
  - vm_compute. reflexivity.
  - unfold installed, installedCalls, writtenCommands. simpl. set_solver.
Defined.

(** A command stored under a name with a capital is replaced by the
    command of that name in the bundle: the check looks for the lowercase
    name, the write goes to the name as the bundle spells it. *)
Example install_replaces_mixed_case_command :
  commands mixedCase !! "Hi" = Some ("Hi", RawCommand CustomCommandSamples.greet.2)
  ∧ ∃ o,
      installCommands CustomCommand.toLowerCase noSignature 3
        CustomCommandSamples.moderator None (Some address) (fun _ => Some commandOnly)
        mixedCase (Some key) = Some o
      ∧ calls o = [SetCommand "g1" "Hi" (authored "u1" hello)].
Proof. split; [reflexivity |]. eexists. split; vm_compute; reflexivity. Qed.

(** A bundle command named like the first name picked for an autoresponse
    is written, and then written over in the same run. *)
Example install_writes_one_name_twice :
  ∃ o,
    installCommands CustomCommand.toLowerCase noSignature 3
      CustomCommandSamples.moderator None (Some address) (fun _ => Some clashing)
      emptyGuild (Some key) = Some o
    ∧ calls o = [SetCommand "g1" "_autoresponse_0" (authored "u1" hello);
                 AddAutoresponse "g1" "ping" false "_autoresponse_0";
                 SetCommand "g1" "_autoresponse_0" (authoredManaged "u1" hello)].
Proof. eexists. split; vm_compute; reflexivity. Qed.

End InstallFacts.

(* ===================================================================== *)
(** ** More on the database connector                                      *)
(* ===================================================================== *)

Module DatabaseMore.
Import Database DatabaseSamples DatabaseMeasures DatabaseFacts.
Local Open Scope nat_scope.
Local Open Scope list_scope.

Lemma below_earlier a b maxAttempts :
  a ≤ b → below b maxAttempts = true → below a maxAttempts = true.
Proof.
  destruct maxAttempts as [n |]; simpl; [| done].
  rewrite !Nat.ltb_lt. lia.
Qed.

Lemma retryLoop_first_success dbName attemptOk intervalMs maxAttempts :
  ∀ count fuel attempt,
    (∀ j, attempt < j ≤ attempt + count → attemptOk j = false) →
    attemptOk (S (attempt + count)) = true →
    below (attempt + count) maxAttempts = true →
    count < fuel →
    retryLoop fuel dbName attemptOk intervalMs maxAttempts attempt
    = Some (failedRounds dbName intervalMs attempt count
            ++ [Connect dbName (S (attempt + count)) true;
                LogInit dbName (S (attempt + count))]).
Proof.
  induction count as [| count IH]; intros fuel attempt Hfail Hok Hbelow Hfuel;
    (destruct fuel as [| fuel]; [lia |]); cbn [retryLoop].
  - rewrite Nat.add_0_r in *. by rewrite Hbelow, Hok.
  - rewrite (below_earlier attempt (attempt + S count) _ ltac:(lia) Hbelow).
    rewrite (Hfail (S attempt)) by lia.
    rewrite (IH fuel (S attempt)).
    + cbn [failedRounds failedRound]. simpl.
      by replace (S (attempt + count)) with (attempt + S count) by lia.
    + intros j Hj. apply Hfail. lia.
    + by replace (S attempt + count) with (attempt + S count) by lia.
    + by replace (S attempt + count) with (attempt + S count) by lia.
    + lia.
Qed.

Lemma slept_app l1 l2 : slept (l1 ++ l2) = slept l1 + slept l2.
Proof.
  induction l1 as [| e l1 IH]; simpl; [done |]. destruct e; simpl; rewrite ?IH; lia.
Qed.

Lemma attempts_app l1 l2 : attempts (l1 ++ l2) = attempts l1 + attempts l2.
Proof. unfold attempts. by rewrite List.filter_app, length_app. Qed.

Lemma failedRounds_measures dbName intervalMs attempt count :
  slept (failedRounds dbName intervalMs attempt count) = count * intervalMs
  ∧ attempts (failedRounds dbName intervalMs attempt count) = count.
Proof.
  revert attempt. induction count as [| count IH]; intros attempt; [done |].
  cbn [failedRounds]. rewrite slept_app, attempts_app.
  destruct (IH (S attempt)) as [-> ->]. unfold attempts. simpl. lia.
Qed.

(** X16. [retryConnect] stops at the first attempt that succeeds. If the
    first [k - 1] attempts fail and attempt [k] succeeds, with [k] within
    [maxAttempts] (any [k] for the default, [Infinity]), the function
    resolves after exactly [k] attempts and [k - 1] pauses of [intervalMs],
    and logs the connection with the attempt number [k]. *)
Theorem retryConnect_stops_at_first_success
    dbName attemptOk intervalMs maxAttempts k fuel :
  (∀ j, 0 < j ≤ k → attemptOk j = false) →
  attemptOk (S k) = true →
  below k maxAttempts = true →
  k < fuel →
  ∃ log,
    retryConnect fuel dbName attemptOk intervalMs maxAttempts = Some (Resolved tt, log)
    ∧ log = failedRounds dbName intervalMs 0 k
            ++ [Connect dbName (S k) true; LogInit dbName (S k)]
    ∧ attempts log = S k
    ∧ slept log = k * intervalMs.
Proof.
  intros Hfail Hok Hbelow Hfuel. eexists. split_and!; [| reflexivity | |].
  - unfold retryConnect.
    by rewrite (retryLoop_first_success dbName attemptOk intervalMs maxAttempts
                  k fuel 0 Hfail Hok Hbelow Hfuel).
  - rewrite attempts_app, (proj2 (failedRounds_measures _ _ _ _)).
    unfold attempts. simpl. lia.
  - rewrite slept_app, (proj1 (failedRounds_measures _ _ _ _)). simpl. lia.
Qed.

Lemma retryConnect_stops_at_first_success_witness :
  ∃ log,
    retryConnect 5 "rethinkDb" (fun j => 3 <=? j) 5000 Infinity = Some (Resolved tt, log)
    ∧ log = failedRounds "rethinkDb" 5000 0 2
            ++ [Connect "rethinkDb" 3 true; LogInit "rethinkDb" 3]
    ∧ attempts log = 3
    ∧ slept log = 2 * 5000.
Proof.
  apply (retryConnect_stops_at_first_success "rethinkDb" (fun j => 3 <=? j) 5000
           Infinity 2 5).
  - intros j Hj. apply Nat.leb_gt. lia.
  - reflexivity.
  - reflexivity.
  - lia.
Defined.

Lemma retryLoop_never dbName attemptOk intervalMs :
  (∀ j, attemptOk j = false) →
  ∀ fuel attempt, retryLoop fuel dbName attemptOk intervalMs Infinity attempt = None.
Proof.
  intros Hfail. induction fuel as [| fuel IH]; intros attempt; [done |].
  cbn [retryLoop below]. by rewrite Hfail, IH.
Qed.

(** X17. With the default [maxAttempts], [Infinity], and a database that
    never connects, [retryConnect] never returns: the loop outlasts any
    amount of fuel. *)
Theorem retryConnect_default_never_gives_up dbName attemptOk intervalMs fuel :
  (∀ j, attemptOk j = false) →
  retryConnect fuel dbName attemptOk intervalMs Infinity = None.
Proof.
  intros Hfail. unfold retryConnect. by rewrite retryLoop_never.
Qed.

Lemma retryConnect_default_never_gives_up_witness :
  retryConnect 1000 "cassandra" (cassandra cassandraDown) 5000 Infinity = None.
Proof.
  apply (retryConnect_default_never_gives_up "cassandra" (cassandra cassandraDown)
           5000 1000).
  reflexivity.
Defined.

Lemma retryLoop_slept dbName attemptOk intervalMs maxAttempts :
  ∀ fuel attempt log,
    retryLoop fuel dbName attemptOk intervalMs maxAttempts attempt = Some log →
    slept log = failures log * intervalMs ∧ failures log ≤ attempts log.
Proof.
  induction fuel as [| fuel IH]; intros attempt log Hrun; [done |].
  cbn [retryLoop] in Hrun.
  destruct (below attempt maxAttempts);
    [| simplify_eq; unfold failures, attempts; simpl; lia].
  destruct (attemptOk (S attempt));
    [simplify_eq; unfold failures, attempts; simpl; lia |].
  destruct (retryLoop fuel dbName attemptOk intervalMs maxAttempts (S attempt))
    as [rest |] eqn:E; [| done].
  simpl in Hrun. simplify_eq. destruct (IH _ _ E) as [Hs Hf].
  unfold failures, attempts in *. simpl. lia.
Qed.

(** X18. With a finite [maxAttempts] of [n], [retryConnect] resolves
    having paused [intervalMs] once per failed attempt, so for at most
    [n * intervalMs] in all; with [n = 0] it makes no attempt at all. *)
Theorem retryConnect_bounded_pause dbName attemptOk intervalMs n fuel :
  n < fuel →
  ∃ log,
    retryConnect fuel dbName attemptOk intervalMs (Finite n) = Some (Resolved tt, log)
    ∧ slept log = failures log * intervalMs
    ∧ slept log ≤ n * intervalMs
    ∧ (n = 0 → log = []).
Proof.
  intros Hfuel.
  destruct (retryLoop_finite dbName attemptOk intervalMs n fuel 0)
    as (log & Hlog & Hatt & _ & _); [lia .. |].
  destruct (retryLoop_slept _ _ _ _ _ _ _ Hlog) as [Hs Hf].
  exists log. unfold retryConnect. rewrite Hlog. split_and!; [done | done | |].
  - rewrite Hs. apply Nat.mul_le_mono_r. lia.
  - intros ->. destruct fuel; [lia |]. cbn [retryLoop below] in Hlog.
    rewrite Nat.ltb_irrefl in Hlog. by simplify_eq.
Qed.

Lemma retryConnect_bounded_pause_witness :
  ∃ log,
    retryConnect 11 "cassandra" (cassandra cassandraDown) 5000 (Finite 10)
    = Some (Resolved tt, log)
    ∧ slept log = failures log * 5000
    ∧ slept log ≤ 10 * 5000
    ∧ (10 = 0 → log = []).
Proof.
  apply (retryConnect_bounded_pause "cassandra" (cassandra cassandraDown) 5000 10 11).
  lia.
Defined.

(** X19. A first [connect] whose migrations fail, one of the seven at
    least, rejects. It has then made the four retrying connections, each
    starting with its attempt 1, and started all seven migrations, and it
    has set up no watcher. The method is replaced all the same: every
    later call resolves at once, and neither the connections nor the
    migrations are tried again. *)
Theorem connect_after_failed_migration fuel b db table :
  10 < fuel →
  connectMethod db = ClassMethod →
  table ∈ ["guilds"; "users"; "vars"; "events"; "tags"; "chatlogs"; "dumps"] →
  migrates b table = false →
  ∃ c1 c2 c3 c4 db1,
    retryConnect fuel "rethinkDb" (rethinkDb b) 5000 (Finite 10) = Some (Resolved tt, c1)
    ∧ retryConnect fuel "cassandra" (cassandra b) 5000 (Finite 10) = Some (Resolved tt, c2)
    ∧ retryConnect fuel "postgresdb" (postgres b) 5000 (Finite 10) = Some (Resolved tt, c3)
    ∧ retryConnect fuel "airtable" (airtable b) 5000 (Finite 10) = Some (Resolved tt, c4)
    ∧ head c1 = Some (Connect "rethinkDb" 1 (rethinkDb b 1))
    ∧ head c2 = Some (Connect "cassandra" 1 (cassandra b 1))
    ∧ head c3 = Some (Connect "postgresdb" 1 (postgres b 1))
    ∧ head c4 = Some (Connect "airtable" 1 (airtable b 1))
    ∧ connect fuel b db = Some (Rejected, db1)
    ∧ journal db1
      = journal db
        ++ [All [c1; c2; c3; c4];
            All [[Migrate "guilds" (migrates b "guilds")];
                 [Migrate "users" (migrates b "users")];
                 [Migrate "vars" (migrates b "vars")];
                 [Migrate "events" (migrates b "events")];
                 [Migrate "tags" (migrates b "tags")];
                 [Migrate "chatlogs" (migrates b "chatlogs")];
                 [Migrate "dumps" (migrates b "dumps")]]]
    ∧ ∀ fuel', connect fuel' b db1 = Some (Resolved tt, db1).
Proof.
  intros Hfuel Hm Hin Hfail.
  destruct (connectBody_resolves fuel b db Hfuel)
    as (c1 & c2 & c3 & c4 & H1 & H2 & H3 & H4 & Hb).
  assert (Hall : forallb (migrates b) tables = false).
  { apply not_true_is_false. intros Hall.
    rewrite forallb_forall in Hall. apply list_elem_of_In in Hin.
    rewrite (Hall _ Hin) in Hfail. done. }
  rewrite Hall in Hb. eexists c1, c2, c3, c4, _. split_and!; try done.
  - apply (retryConnect_first_attempt fuel _ _ 5000 10 _); [lia | exact H1].
  - apply (retryConnect_first_attempt fuel _ _ 5000 10 _); [lia | exact H2].
  - apply (retryConnect_first_attempt fuel _ _ 5000 10 _); [lia | exact H3].
  - apply (retryConnect_first_attempt fuel _ _ 5000 10 _); [lia | exact H4].
  - unfold connect. rewrite Hm. exact Hb.
  - reflexivity.
  - intros fuel'. reflexivity.
Qed.

Lemma connect_after_failed_migration_witness :
  ∃ c1 c2 c3 c4 db1,
    retryConnect 11 "rethinkDb" (rethinkDb tagsBroken) 5000 (Finite 10) = Some (Resolved tt, c1)
    ∧ retryConnect 11 "cassandra" (cassandra tagsBroken) 5000 (Finite 10) = Some (Resolved tt, c2)
    ∧ retryConnect 11 "postgresdb" (postgres tagsBroken) 5000 (Finite 10) = Some (Resolved tt, c3)
    ∧ retryConnect 11 "airtable" (airtable tagsBroken) 5000 (Finite 10) = Some (Resolved tt, c4)
    ∧ head c1 = Some (Connect "rethinkDb" 1 (rethinkDb tagsBroken 1))
    ∧ head c2 = Some (Connect "cassandra" 1 (cassandra tagsBroken 1))
    ∧ head c3 = Some (Connect "postgresdb" 1 (postgres tagsBroken 1))
    ∧ head c4 = Some (Connect "airtable" 1 (airtable tagsBroken 1))
    ∧ connect 11 tagsBroken fresh = Some (Rejected, db1)
    ∧ journal db1
      = journal fresh
        ++ [All [c1; c2; c3; c4];
            All [[Migrate "guilds" (migrates tagsBroken "guilds")];
                 [Migrate "users" (migrates tagsBroken "users")];
                 [Migrate "vars" (migrates tagsBroken "vars")];
                 [Migrate "events" (migrates tagsBroken "events")];
                 [Migrate "tags" (migrates tagsBroken "tags")];
                 [Migrate "chatlogs" (migrates tagsBroken "chatlogs")];
                 [Migrate "dumps" (migrates tagsBroken "dumps")]]]
    ∧ ∀ fuel', connect fuel' tagsBroken db1 = Some (Resolved tt, db1).
Proof.
  apply (connect_after_failed_migration 11 tagsBroken fresh "tags").
  - lia.
  - reflexivity.
  - set_solver.
  - reflexivity.
Defined.

End DatabaseMore.

(* ===================================================================== *)
(** ** More on the [delete] subtag and the concat binding                  *)
(* ===================================================================== *)

Module DeleteMore.
Import Delete DeleteSamples DeleteMeasures DeleteFacts.
Local Open Scope nat_scope.
Local Open Scope list_scope.

(** The runs of [deleteMessage], by the point they reach. *)
Lemma deleteMessage_cases h context channelId messageId w :
  let run := deleteMessage h context channelId messageId w in
  (isDiagnostic run.1 = true ∧ run.2 = w)
  ∨ (∃ ch, isDiagnostic run.1 = true
           ∧ msg_id (msg context) ≠ messageId
           ∧ run.2 = emit (EvGetMessage (channel_id ch) messageId false) w)
  ∨ (∃ ch target w1,
       fetchTarget h context ch messageId w = (Resolved target, w1)
       ∧ run = (RUndefined,
                tryDelete h target
                  (setMarker (guild_id (guild context)) (msg_id (msg context)) w1))).
Proof.
  unfold deleteMessage.
  destruct (negb (isStaff context || ownsMessage context messageId)); [by left |].
  destruct (parseChannel h context channelId) as [ch |]; [| by left].
  destruct (fetchTarget h context ch messageId w) as [[target |] w1] eqn:E.
  - right. right. by exists ch, target, w1.
  - right. left. exists ch. unfold fetchTarget in E. case_decide; [done |].
    simplify_eq. split_and!; [done | done |]. simpl.
    by destruct (getMessage h (channel_id ch) messageId).
Qed.

Lemma fetchTarget_trace h context ch messageId w r w1 :
  fetchTarget h context ch messageId w = (r, w1) →
  notCommandMessages w1 = notCommandMessages w
  ∧ ((msg_id (msg context) = messageId ∧ trace w1 = trace w)
     ∨ (msg_id (msg context) ≠ messageId
        ∧ trace w1 = trace w ++ [EvGetMessage (channel_id ch) messageId (is_ok r)])).
Proof.
  unfold fetchTarget. case_decide; intros; simplify_eq; split; auto.
Qed.

(** X20. An error answer of [deleteMessage] means that nothing was marked
    and nothing was deleted: the markers are as they were, and the only
    platform call the run can have made is a [getMessage] for the target
    that failed. *)
Theorem delete_error_means_nothing_done h context channelId messageId w :
  let run := deleteMessage h context channelId messageId w in
  isDiagnostic run.1 = true →
  notCommandMessages run.2 = notCommandMessages w
  ∧ (trace run.2 = trace w
     ∨ ∃ ch, trace run.2 = trace w ++ [EvGetMessage ch messageId false]).
Proof.
  intros run Herr.
  destruct (deleteMessage_cases h context channelId messageId w)
    as [[_ Hw] | [(ch & _ & _ & Hw) | (ch & target & w1 & _ & Hrun)]];
    fold run in Hw || fold run in Hrun.
  - rewrite Hw. by split; [| left].
  - rewrite Hw. split; [done |]. right. by eexists.
  - rewrite Hrun in Herr. done.
Qed.

Lemma delete_error_means_nothing_done_witness :
  notCommandMessages (deleteMessage cannotFetch staffContext "c1" "m2" quiet).2
  = notCommandMessages quiet
  ∧ (trace (deleteMessage cannotFetch staffContext "c1" "m2" quiet).2 = trace quiet
     ∨ ∃ ch, trace (deleteMessage cannotFetch staffContext "c1" "m2" quiet).2
             = trace quiet ++ [EvGetMessage ch "m2" false]).
Proof.
  apply (delete_error_means_nothing_done cannotFetch staffContext "c1" "m2" quiet).
  reflexivity.
Defined.

Lemma marked_other g m g' m' w :
  (g, m) ≠ (g', m') → marked g m (setMarker g' m' w) = marked g m w.
Proof.
  intros Hne. unfold marked, setMarker; simpl.
  destruct (decide (g = g')) as [-> | Hg].
  - rewrite lookup_insert_eq. rewrite lookup_insert_ne by congruence.
    by destruct (notCommandMessages w !! g').
  - by rewrite lookup_insert_ne.
Qed.

Lemma marked_same_markers g m w w' :
  notCommandMessages w' = notCommandMessages w → marked g m w' = marked g m w.
Proof. unfold marked. by intros ->. Qed.

(** X21. [deleteMessage] never clears a marker, and the only marker it
    can set is the one of the invoking message in the guild of the
    context. *)
Theorem delete_touches_one_marker h context channelId messageId w g m :
  let after := (deleteMessage h context channelId messageId w).2 in
  (marked g m w = true → marked g m after = true)
  ∧ ((g, m) ≠ (guild_id (guild context), msg_id (msg context)) →
     marked g m after = marked g m w).
Proof.
  intros after.
  assert (Hcases :
    marked g m after = marked g m w
    ∨ ∃ w1, notCommandMessages w1 = notCommandMessages w
            ∧ marked g m after
              = marked g m (setMarker (guild_id (guild context))
                              (msg_id (msg context)) w1)).
  { subst after.
    destruct (deleteMessage_cases h context channelId messageId w)
      as [[_ Hw] | [(ch & _ & _ & Hw) | (ch & target & w1 & Hfetch & Hrun)]].
    - left. by rewrite Hw.
    - left. by rewrite Hw.
    - right. exists w1. rewrite Hrun. cbn [snd].
      apply fetchTarget_trace in Hfetch as [Hm _].
      split; [done | apply marked_tryDelete]. }
  destruct Hcases as [-> | (w1 & Hm & ->)]; [done |]. split.
  - intros Hmarked.
    destruct (decide ((g, m) = (guild_id (guild context), msg_id (msg context))))
      as [[= -> ->] | Hne]; [apply marked_setMarker |].
    by rewrite (marked_other _ _ _ _ _ Hne), (marked_same_markers _ _ _ _ Hm).
  - intros Hne.
    by rewrite (marked_other _ _ _ _ _ Hne), (marked_same_markers _ _ _ _ Hm).
Qed.

Lemma delete_touches_one_marker_witness :
  let after := (deleteMessage workingHost staffContext "c1" "m2" quiet).2 in
  (marked "g1" "m2" quiet = true → marked "g1" "m2" after = true)
  ∧ (("g1", "m2") ≠ (guild_id (guild staffContext), msg_id (msg staffContext)) →
     marked "g1" "m2" after = marked "g1" "m2" quiet).
Proof.
  exact (delete_touches_one_marker workingHost staffContext "c1" "m2" quiet "g1" "m2").
Defined.

Lemma lookups_app l1 l2 : lookups (l1 ++ l2) = lookups l1 + lookups l2.
Proof. unfold lookups. by rewrite List.filter_app, length_app. Qed.

Lemma deletions_app l1 l2 : deletions (l1 ++ l2) = deletions l1 + deletions l2.
Proof. unfold deletions. by rewrite List.filter_app, length_app. Qed.

(** X22. A run of [deleteMessage] makes at most one [getMessage] call and
    at most one [deleteMessage] call, and no [getMessage] call when the
    target is the invoking message. When it deletes, it has fetched or
    reused a message, and the call is for that message in the channel the
    message itself names. *)
Theorem delete_calls_platform_at_most_once h context channelId messageId w :
  let run := deleteMessage h context channelId messageId w in
  ∃ new,
    trace run.2 = trace w ++ new
    ∧ lookups new ≤ 1 ∧ deletions new ≤ 1
    ∧ (msg_id (msg context) = messageId → lookups new = 0)
    ∧ (deletions new = 1 →
       ∃ ch target w1,
         fetchTarget h context ch messageId w = (Resolved (Some target), w1)
         ∧ ∃ ok, last new
                 = Some (EvDeleteMessage (channel_id (msg_channel target))
                           (msg_id target) ok)).
Proof.
  intros run. subst run.
  destruct (deleteMessage_cases h context channelId messageId w)
    as [[_ Hw] | [(ch & _ & Hne & Hw) | (ch & target & w1 & Hfetch & Hrun)]].
  - rewrite Hw. exists []. rewrite app_nil_r.
    split_and!; try done; unfold lookups, deletions; simpl; lia.
  - rewrite Hw. eexists [_]. split_and!; [done | | | done |];
      unfold lookups, deletions; simpl; lia.
  - rewrite Hrun. cbn [snd].
    destruct (fetchTarget_trace _ _ _ _ _ _ _ Hfetch) as [_ Ht].
    assert (Hpre : ∃ pre, trace w1 = trace w ++ pre ∧ lookups pre ≤ 1
                          ∧ deletions pre = 0
                          ∧ (msg_id (msg context) = messageId → lookups pre = 0)).
    { destruct Ht as [[Heq ->] | [Hne ->]].
      - exists []. rewrite app_nil_r.
        split_and!; try done; unfold lookups; simpl; lia.
      - eexists [_]. split_and!; [done | | done | done]. unfold lookups. simpl. lia. }
    destruct Hpre as (pre & Hpre & Hl & Hd & Hz).
    destruct target as [target |]; simpl.
    + eexists (pre ++ [_; _]). rewrite Hpre. split_and!.
      * by rewrite <- !app_assoc.
      * rewrite lookups_app. unfold lookups at 2. simpl. lia.
      * rewrite deletions_app. unfold deletions at 2. simpl. lia.
      * intros Heq. rewrite lookups_app, (Hz Heq). done.
      * intros _. exists ch, target, w1. split; [done |]. eexists.
        rewrite last_app. done.
    + eexists (pre ++ [_]). rewrite Hpre. split_and!.
      * by rewrite <- !app_assoc.
      * rewrite lookups_app. unfold lookups at 2. simpl. lia.
      * rewrite deletions_app. unfold deletions at 2. simpl. lia.
      * intros Heq. rewrite lookups_app, (Hz Heq). done.
      * rewrite deletions_app, Hd. unfold deletions. simpl. lia.
Qed.

Lemma delete_calls_platform_at_most_once_witness :
  let run := deleteMessage workingHost staffContext "c1" "m1" quiet in
  ∃ new,
    trace run.2 = trace quiet ++ new
    ∧ lookups new ≤ 1 ∧ deletions new ≤ 1
    ∧ (msg_id (msg staffContext) = "m1" → lookups new = 0)
    ∧ (deletions new = 1 →
       ∃ ch target w1,
         fetchTarget workingHost staffContext ch "m1" quiet = (Resolved (Some target), w1)
         ∧ ∃ ok, last new
                 = Some (EvDeleteMessage (channel_id (msg_channel target))
                           (msg_id target) ok)).
Proof.
  exact (delete_calls_platform_at_most_once workingHost staffContext "c1" "m1" quiet).
Defined.

End DeleteMore.

Module ConcatBindingMore.
Import ConcatBinding ConcatBindingSamples ConcatBindingFacts.
Local Open Scope Z_scope.

Section BinderMore.

Context {ParseResult BindingResult : Type}.
Variable merge : list FlagResultValue → Z → Z → FlagResultValue.
Variable getBindingResult : CommandBinderState → Z → ParseResult → BindingResult.
Variable bindingError : CommandBinderState → string → BindingResult.
Variable parse : string → CommandBinderState → ParseResult.

Local Abbreviation binder := (binder merge getBindingResult bindingError parse).

(** X23. With no positional argument left ([argIndex] is the number of
    arguments) the binding yields exactly one result: the parsed fallback,
    bound without taking an argument, if a fallback is defined, and
    otherwise the error that names the parameter. *)
Theorem binder_nothing_left this state :
  List.length (positional state) = argIndex state →
  binder this state
  = match fallback this with
    | Some f => [getBindingResult state 0 (parse f state)]
    | None =>
        [bindingError state
           ("❌ Not enough arguments! `" ++ name this ++ "` is required")]
    end.
Proof.
  intros Hlen.
  by rewrite (binder_no_argument_left merge getBindingResult bindingError parse)
    by (unfold remaining; lia).
Qed.

(** X24. With [argIndex] beyond the number of positional arguments the
    binding yields nothing at all: neither a candidate, nor the fallback,
    nor an error. *)
Theorem binder_past_the_end this state :
  (List.length (positional state) < argIndex state)%nat →
  binder this state = [].
Proof.
  intros Hlen. unfold ConcatBinding.binder.
  rewrite (proj2 (Nat.eqb_neq _ _)) by lia.
  unfold remaining, seqZ. replace (Z.to_nat _) with 0%nat by lia. done.
Qed.

(** X25. With [n ≥ 1] positional arguments left the binding yields
    [n + 1] results and never the fallback or an error: for every
    [i = 0, ..., n] the result at position [i] parses the merge of the
    arguments from [argIndex] up to, not including, [argIndex + i + 1],
    raw or not as the binding says, and is bound with the count [i]. *)
Theorem binder_candidates this state (i : nat) :
  1 ≤ remaining state →
  Z.of_nat i ≤ remaining state →
  Z.of_nat (List.length (binder this state)) = remaining state + 1
  ∧ binder this state !! i
    = Some (getBindingResult state (Z.of_nat i)
              (parse (let args := merge (positional state)
                                    (Z.of_nat (argIndex state))
                                    (Z.of_nat (argIndex state) + Z.of_nat i + 1) in
                      if useRaw this then raw args else value args)
                     state)).
Proof.
  intros Hn Hi.
  destruct (binder_arguments_left merge getBindingResult bindingError parse
              this state Hn) as [Heq Hlen].
  split; [exact Hlen |]. rewrite Heq, list_lookup_fmap.
  rewrite lookup_seqZ_lt by lia. done.
Qed.

End BinderMore.

Lemma binder_nothing_left_witness :
  binder joinRange (fun _ i p => (i, p)) (fun _ e => (-1, e)) (fun s _ => s) optionalText
    {| positional := [word "a"]; argIndex := 1 |}
  = [(0, "nothing")].
Proof.
  apply (binder_nothing_left joinRange (fun _ i p => (i, p)) (fun _ e => (-1, e))
           (fun s _ => s) optionalText {| positional := [word "a"]; argIndex := 1 |}).
  reflexivity.
Defined.

Lemma binder_past_the_end_witness :
  binder joinRange (fun _ i p => (i, p)) (fun _ e => (-1, e)) (fun s _ => s) text
    {| positional := [word "a"]; argIndex := 3 |}
  = [].
Proof.
  apply (binder_past_the_end joinRange (fun _ i p => (i, p)) (fun _ e => (-1, e))
           (fun s _ => s) text {| positional := [word "a"]; argIndex := 3 |}).
  simpl. lia.
Defined.

Lemma binder_candidates_witness :
  let state := {| positional := [word "a"; word "b"]; argIndex := 0 |} in
  let run := binder joinRange (fun _ i p => (i, p)) (fun _ e => (-1, e))
               (fun s _ => s) text state in
  Z.of_nat (List.length run) = remaining state + 1
  ∧ run !! 1%nat
    = Some (1, let args := joinRange (positional state) 0 (0 + 1 + 1) in
               if useRaw text then raw args else value args).
Proof.
  apply (binder_candidates joinRange (fun _ i p => (i, p)) (fun _ e => (-1, e))
           (fun s _ => s) text {| positional := [word "a"; word "b"]; argIndex := 0 |}
           1%nat); vm_compute; discriminate.
Defined.

End ConcatBindingMore.

Module TagImportFacts.
Import CustomCommand CustomCommandSamples CustomCommandFacts ManagerVocabulary ManagerMore TagImport.
Local Open Scope nat_scope.

Section ImporterFacts.

Variable getTag : string → option StoredTag.
Variable fullNameOf : string → string.
Variable callerName : string.
Variable check : string → Analysis.
Variable stringifyAnalysis : Analysis → string.

Local Abbreviation importCommand := (importCommand getTag fullNameOf callerName).

(** X26. [importCommand] writes at most one command, an alias, and never
    over a command: either the world is as it was, or the tag exists, no
    command was stored under the normalised name, and the world differs
    by the one alias stored under that name, with the author of the tag
    as author and the caller as authorizer. *)
Theorem importCommand_adds_one_alias context tagName commandName w :
  let n := normalizeName commandName in
  let run := importCommand context tagName commandName w in
  run.2 = w
  ∨ ∃ tag,
      getTag tagName = Some tag
      ∧ isGuildCommandContext context = true
      ∧ commands w !! (guildId context, n) = None
      ∧ run.2 = {| commands := <[(guildId context, n) := importedAs context tagName tag]>
                                 (commands w);
                   replies := replies w;
                   storeCalls := storeCalls w
                     ++ [SetCommand (guildId context) n (importedAs context tagName tag)] |}.
Proof.
  intros n run. subst n run. unfold TagImport.importCommand.
  destruct (isGuildCommandContext context) eqn:Hg; [| by left].
  unfold bind, getCommand, ret, dbSetCommand. simpl.
  destruct (commands w !! (guildId context, normalizeName commandName)) eqn:Hk;
    simpl; [by left |].
  destruct (getTag tagName) as [tag |] eqn:Ht; [| by left].
  right. by exists tag.
Qed.

(** X27. An imported alias is protected. After [importCommand] has
    stored an alias under a name that is not empty, [editCommand] and
    [setCommand] under that name answer that the command is an alias to
    the tag, and [createCommand] answers that the command already exists;
    none of them changes the world, whatever script is submitted. *)
Theorem imported_alias_is_protected context tagName commandName tag script w :
  isGuildCommandContext context = true →
  getTag tagName = Some tag →
  normalizeName commandName ≠ "" →
  commands w !! (guildId context, normalizeName commandName) = None →
  let n := normalizeName commandName in
  let w' := (importCommand context tagName commandName w).2 in
  let refusal :=
    Some ("❌ The `" ++ n ++ "` custom command is an alias to the tag `"
            ++ tagName ++ "`") in
  commands w' !! (guildId context, n) = Some (importedAs context tagName tag)
  ∧ editCommand check stringifyAnalysis context (Some n) script w' = (refusal, w')
  ∧ setCommand check stringifyAnalysis context (Some n) script w' = (refusal, w')
  ∧ createCommand check stringifyAnalysis context (Some n) script w'
    = (Some ("❌ The `" ++ n ++ "` custom command already exists!"), w').
Proof.
  intros Hg Ht Hne Hk n w' refusal.
  assert (Hstored : commands w' !! (guildId context, n)
                    = Some (importedAs context tagName tag)).
  { subst w'. unfold TagImport.importCommand. rewrite Hg.
    unfold bind, getCommand, ret, dbSetCommand. simpl. rewrite Hk. simpl.
    rewrite Ht. simpl. by rewrite lookup_insert_eq. }
  assert (Hn : normalizeName n = n) by apply normalizeName_stable.
  pose proof (requestCommand_given context n w' Hn Hne) as Hreq.
  rewrite Hstored in Hreq.
  split_and!; [exact Hstored | | |].
  - unfold editCommand, requestEditableCommand, requestSettableCommand.
    rewrite Hg. unfold bind. simpl. by rewrite Hreq.
  - unfold setCommand, requestSettableCommand.
    rewrite Hg. unfold bind. simpl. by rewrite Hreq.
  - unfold createCommand, requestCreatableCommand.
    rewrite Hg. unfold bind. simpl. by rewrite Hreq.
Qed.

End ImporterFacts.

Lemma imported_alias_is_protected_witness :
  let n := normalizeName "Poll" in
  let w' := (importCommand pollTag (fun id => id) "mod" moderator "poll" "Poll" emptyStore).2 in
  let refusal :=
    Some ("❌ The `" ++ n ++ "` custom command is an alias to the tag `"
            ++ "poll" ++ "`") in
  commands w' !! (guildId moderator, n)
  = Some (importedAs moderator "poll" {| tag_name := "poll"; tag_author := "u9" |})
  ∧ editCommand sampleCheck sampleStringify moderator (Some n) (Some "Bye") w' = (refusal, w')
  ∧ setCommand sampleCheck sampleStringify moderator (Some n) (Some "Bye") w' = (refusal, w')
  ∧ createCommand sampleCheck sampleStringify moderator (Some n) (Some "Bye") w'
    = (Some ("❌ The `" ++ n ++ "` custom command already exists!"), w').
Proof.
  apply (imported_alias_is_protected pollTag (fun id => id) "mod" sampleCheck
           sampleStringify moderator "poll" "Poll"
           {| tag_name := "poll"; tag_author := "u9" |} (Some "Bye") emptyStore);
    reflexivity || discriminate.
Defined.

End TagImportFacts.

Module ShrinkwrapperFacts.
Import CustomCommand CustomCommandSamples CustomCommandFacts Shrinkwrapper ShrinkwrapperSamples.
Local Open Scope nat_scope.
Local Open Scope list_scope.

Example export_three :
  shrinkwrapCommands CustomCommand.toLowerCase objectMembers unsigned moderator
    ["Greet"; "poll"; "_autoresponse_0"; "missing"] guildData (Some exportKey)
  = Some (Some (String.concat nl
            ["Salutations! You have discovered the super handy ShrinkWrapper9000!";
             ""; "If you decide to proceed, this will:";
             " - Export the custom command `greet`";
             " - Export the custom command `_autoresponse_0`";
             "   - Export the associated autoresponse to `x`";
             "This will not:"; " - Export variables";
             " - Export authors or authorizers"; " - Export depedencies";
             "If you wish to continue, please say `thanks, shrinkwrapper!`"]),
          File "✅ No problem, my job here is done." "" exported).
Proof. vm_compute. reflexivity. Qed.

(** The members of [cc] stand in the order of the requests, the array
    indices first and in ascending order, and a name asked for twice stays
    where it was. The signature can tell one order from another. *)
Example export_keeps_order :
  (∃ asked signature payload,
     shrinkwrapCommands CustomCommand.toLowerCase objectMembers namesInOrder moderator
       ["b"; "10"; "a"; "9"; "b"] numbered (Some exportKey)
     = Some (asked, File "✅ No problem, my job here is done." signature payload)
     ∧ keys (b_cc payload) = ["9"; "10"; "b"; "a"]
     ∧ signature = "9,10,b,a")
  ∧ (∃ asked signature payload,
       shrinkwrapCommands CustomCommand.toLowerCase objectMembers namesInOrder moderator
         ["a"; "b"] numbered (Some exportKey)
       = Some (asked, File "✅ No problem, my job here is done." signature payload)
       ∧ keys (b_cc payload) = ["a"; "b"]
       ∧ signature = "a,b")
  ∧ (∃ asked signature payload,
       shrinkwrapCommands CustomCommand.toLowerCase objectMembers namesInOrder moderator
         ["b"; "a"] numbered (Some exportKey)
       = Some (asked, File "✅ No problem, my job here is done." signature payload)
       ∧ keys (b_cc payload) = ["b"; "a"]
       ∧ signature = "b,a").
Proof.
  split_and!; do 3 eexists; (split_and!; [vm_compute; reflexivity | reflexivity | reflexivity]).
Qed.

(** *** Assignment to a property *)

Lemma hasOwn_keys k o : hasOwn k o = true ↔ k ∈ keys o.
Proof.
  unfold hasOwn, keys. induction o as [| [k' v'] rest IH]; simpl.
  - split; [done | by intros ?%elem_of_nil].
  - rewrite orb_true_iff, IH, elem_of_cons. simpl.
    split; (intros [H | H]; [left | by right]).
    + by apply String.eqb_eq in H.
    + by apply String.eqb_eq.
Qed.

Lemma replaceMember_keys k v o : keys (replaceMember k v o) = keys o.
Proof.
  unfold keys. induction o as [| [k' v'] rest IH]; simpl; [done |].
  destruct (String.eqb_spec k' k) as [-> | Hne]; simpl; [done |]. by f_equal.
Qed.

Lemma replaceMember_elem k v o x :
  x ∈ replaceMember k v o → x = (k, v) ∨ x ∈ o.
Proof.
  induction o as [| [k' v'] rest IH]; simpl; [by right |].
  destruct (String.eqb k' k).
  - rewrite !elem_of_cons. intros [-> | H]; [by left | by right; right].
  - rewrite !elem_of_cons. intros [-> | H]; [by right; left |].
    destruct (IH H) as [-> | H']; [by left | by right; right].
Qed.

Lemma insertIndex_perm n k v o : insertIndex n k v o ≡ₚ (k, v) :: o.
Proof.
  induction o as [| [k' v'] rest IH]; simpl; [done |].
  destruct (arrayIndex k') as [n' |]; [| done].
  destruct (n' <? n)%N; [| done].
  rewrite IH. apply Permutation_swap.
Qed.

Lemma setProperty_elem k v o x :
  x ∈ setProperty k v o → x = (k, v) ∨ x ∈ o.
Proof.
  unfold setProperty. destruct (hasOwn k o).
  - apply replaceMember_elem.
  - destruct (arrayIndex k) as [n |].
    + rewrite insertIndex_perm, elem_of_cons. tauto.
    + rewrite elem_of_app, list_elem_of_singleton. tauto.
Qed.

Lemma setProperty_keys k v o :
  NoDup (keys o) → NoDup (keys (setProperty k v o)).
Proof.
  intros Hnd. unfold setProperty. destruct (hasOwn k o) eqn:Hown.
  - by rewrite replaceMember_keys.
  - assert (Hnew : k ∉ keys o).
    { intros Hin. apply hasOwn_keys in Hin. congruence. }
    destruct (arrayIndex k) as [n |].
    + unfold keys. rewrite insertIndex_perm. simpl. by constructor.
    + unfold keys. rewrite fmap_app. simpl.
      apply NoDup_app. split_and!; [done | | apply NoDup_singleton].
      intros k' Hin ->%list_elem_of_singleton. done.
Qed.

Lemma setProperty_keys_elem k v o k' :
  k' = k ∨ k' ∈ keys o → k' ∈ keys (setProperty k v o).
Proof.
  unfold setProperty. destruct (hasOwn k o) eqn:Hown.
  - rewrite replaceMember_keys. apply hasOwn_keys in Hown. by intros [-> | ?].
  - destruct (arrayIndex k) as [n |]; unfold keys.
    + rewrite insertIndex_perm. simpl. by rewrite elem_of_cons.
    + rewrite fmap_app, elem_of_app. simpl. rewrite list_elem_of_singleton. tauto.
Qed.

(** *** The loop *)

Lemma pushAutoresponses_bundle shrunk ars st st' :
  pushAutoresponses shrunk ars st = Some st' →
  b_cc st'.1 = b_cc st.1
  ∧ b_are st'.1 = b_are st.1
  ∧ b_ar st'.1 = b_ar st.1 ++ (setProperty "executes" shrunk <$> ars).
Proof.
  revert st. induction ars as [| a ars IH]; intros st Hrun; simpl in Hrun.
  - simplify_eq. simpl. by rewrite app_nil_r.
  - destruct (readAutoresponse a) as [[term regex] |]; [| done].
    apply IH in Hrun as (-> & -> & ->). simpl. by rewrite <- app_assoc.
Qed.

Section ExporterFacts.

Variable jsToLowerCase : string → string.
Variable inherited : string → bool.
Variable signShrinkwrap : Bundle → string.

Local Abbreviation exportOne := (exportOne jsToLowerCase inherited).
Local Abbreviation exportAll := (exportAll jsToLowerCase inherited).
Local Abbreviation shrinkwrapCommands :=
  (shrinkwrapCommands jsToLowerCase inherited signShrinkwrap).

Lemma exportOne_faithful names data requested st st' :
  jsToLowerCase requested ∈ names →
  exportOne data requested st = Some st' →
  faithful names data st.1 → faithful names data st'.1.
Proof.
  unfold Shrinkwrapper.exportOne. intros Hname Hrun (Hnd & Hcc & Har & Hare).
  destruct (inherited (jsToLowerCase requested)); [done |].
  destruct (commands data !! jsToLowerCase requested) as [[n [r | a]] |] eqn:Hk;
    [| by simplify_eq | by simplify_eq].
  assert (Hfrom : exportedFrom data (jsToLowerCase requested)
                    (JObject (shrinkCommand (n, r)))).
  { by exists n, r. }
  destruct (autoResponses data !! jsToLowerCase requested) as [ars |] eqn:Hars.
  - apply pushAutoresponses_bundle in Hrun as (Ecc & Eare & Ear).
    unfold faithful. rewrite Ecc, Eare, Ear. simpl. split_and!; [done | done | | done].
    apply Forall_app. split; [done |]. apply Forall_fmap, Forall_forall.
    intros a Ha. simpl. by exists (jsToLowerCase requested), ars, a, (JObject (shrinkCommand (n, r))).
  - case_bool_decide as Hev; simplify_eq; unfold faithful; simpl; split_and!;
      try done.
    + intros x [= <-]. by exists (jsToLowerCase requested), (JObject (shrinkCommand (n, r))).
    + by apply setProperty_keys.
    + intros k shrunk Hin. apply setProperty_elem in Hin as [[= -> ->] | Hin].
      * done.
      * by apply Hcc.
Qed.

Lemma exportAll_faithful names data commandNames st st' :
  (∀ requested, requested ∈ commandNames → jsToLowerCase requested ∈ names) →
  exportAll data commandNames st = Some st' →
  faithful names data st.1 → faithful names data st'.1.
Proof.
  revert st. induction commandNames as [| requested rest IH]; intros st Hnames Hrun Hf.
  - simpl in Hrun. by simplify_eq.
  - cbn [Shrinkwrapper.exportAll] in Hrun.
    destruct (exportOne data requested st) as [st1 |] eqn:E; [| done].
    simpl in Hrun. eapply IH; [| exact Hrun |].
    + intros q Hq. apply Hnames. by right.
    + eapply exportOne_faithful; [| exact E | exact Hf]. apply Hnames. by left.
Qed.

Lemma exportOne_exports data requested st st' :
  exportOne data requested st = Some st' →
  (∀ k, k ∈ keys (b_cc st.1) → k ∈ keys (b_cc st'.1))
  ∧ (plainCommand data (jsToLowerCase requested) →
     jsToLowerCase requested ∈ keys (b_cc st'.1)).
Proof.
  unfold Shrinkwrapper.exportOne, plainCommand. intros Hrun.
  destruct (inherited (jsToLowerCase requested)); [done |].
  destruct (commands data !! jsToLowerCase requested) as [[n [r | a]] |] eqn:Hk.
  - destruct (autoResponses data !! jsToLowerCase requested) as [ars |] eqn:Hars.
    + apply pushAutoresponses_bundle in Hrun as (-> & _ & _). simpl.
      split; [done |]. by intros (_ & ? & _).
    + case_bool_decide as Hev; simplify_eq; simpl.
      * split; [done |]. by intros (_ & _ & ?).
      * split.
        -- intros k Hin. apply setProperty_keys_elem. by right.
        -- intros _. apply setProperty_keys_elem. by left.
  - simplify_eq. split; [done |]. by intros ((? & ? & ?) & _).
  - simplify_eq. split; [done |]. by intros ((? & ? & ?) & _).
Qed.

Lemma exportAll_exports data commandNames st st' :
  exportAll data commandNames st = Some st' →
  (∀ k, k ∈ keys (b_cc st.1) → k ∈ keys (b_cc st'.1))
  ∧ (∀ requested, requested ∈ commandNames →
       plainCommand data (jsToLowerCase requested) →
       jsToLowerCase requested ∈ keys (b_cc st'.1)).
Proof.
  revert st. induction commandNames as [| q rest IH]; intros st Hrun.
  - simpl in Hrun. simplify_eq. split; [done |]. by intros ? ?%elem_of_nil.
  - cbn [Shrinkwrapper.exportAll] in Hrun.
    destruct (exportOne data q st) as [st1 |] eqn:E; [| done]. simpl in Hrun.
    apply exportOne_exports in E as [Hkeep Hnew].
    apply IH in Hrun as [Hkeep' Hrest]. split.
    + intros k Hin. by apply Hkeep', Hkeep.
    + intros requested [-> | Hin]%elem_of_cons Hplain.
      * by apply Hkeep', Hnew.
      * by apply Hrest.
Qed.

Lemma emptyBundle_faithful names data : faithful names data emptyBundle.
Proof.
  unfold faithful, emptyBundle; simpl. split_and!; [constructor | | constructor | done].
  intros k shrunk Hin. by apply elem_of_nil in Hin.
Qed.

(** X28. A shrinkwrap is only handed out after the exact phrase, and it
    holds what the guild has under the names asked for, and nothing else.
    The members of [cc] have pairwise distinct names; each is the shrunk
    form of a command with a body of its own that is stored under that
    name, the lowercase form of a name asked for, and that is behind no
    autoresponse; and every such command that was asked for is a member of
    [cc]. Every member of [ar] is a stored autoresponse to a command asked
    for, with the shrunk form of that command as its member [executes],
    and [are], if set, holds the shrunk form of the command behind the
    autoresponse to everything. No alias is exported. *)
Theorem shrinkwrap_holds_guild_commands
    context commandNames data reply asked answer signature payload :
  shrinkwrapCommands context commandNames data reply
  = Some (asked, File answer signature payload) →
  reply = Some exportKey
  ∧ faithful (jsToLowerCase <$> commandNames) data payload
  ∧ (∀ requested, requested ∈ commandNames →
       plainCommand data (jsToLowerCase requested) →
       jsToLowerCase requested ∈ keys (b_cc payload)).
Proof.
  unfold Shrinkwrapper.shrinkwrapCommands. intros Hrun.
  destruct (negb (isGuildCommandContext context)); [by simplify_eq |].
  match type of Hrun with
  | context [Shrinkwrapper.exportAll _ _ _ _ ?st0] =>
      destruct (exportAll data commandNames st0) as [st |] eqn:E; [| done]
  end.
  cbn [mbind option_bind] in Hrun.
  case_bool_decide as Hreply; cbn [negb] in Hrun; simplify_eq.
  split_and!; [done | |].
  - apply (exportAll_faithful _ _ _ _ _
             (λ q Hq, list_elem_of_fmap_2 jsToLowerCase _ q Hq) E).
    apply emptyBundle_faithful.
  - exact (proj2 (exportAll_exports _ _ _ _ E)).
Qed.

End ExporterFacts.

Lemma shrinkwrap_holds_guild_commands_witness :
  Some exportKey = Some exportKey
  ∧ faithful (CustomCommand.toLowerCase <$> ["Greet"; "poll"; "_autoresponse_0"; "missing"])
      guildData exported
  ∧ (∀ requested, requested ∈ ["Greet"; "poll"; "_autoresponse_0"; "missing"] →
       plainCommand guildData (CustomCommand.toLowerCase requested) →
       CustomCommand.toLowerCase requested ∈ keys (b_cc exported)).
Proof.
  eapply (shrinkwrap_holds_guild_commands CustomCommand.toLowerCase objectMembers
            unsigned moderator ["Greet"; "poll"; "_autoresponse_0"; "missing"]
            guildData (Some exportKey)).
  vm_compute. reflexivity.
Defined.

End ShrinkwrapperFacts.
